(** * Predator Security Suite: Calypso helper interface, contracts viewer
      and dictionary-attack scene

    A shallow embedding of
    - [predator_app/scenes/predator_scene_dictionary_attack_ui.c],
    - [predator_app/scenes/predator_scene_calypso_contracts_ui.c],
    - the declarations of [predator_app/helpers/predator_crypto_calypso.h],
    followed by the properties established about them.

    Conventions.  A [uintN_t] is a [Z] in [0, 2^N); every C operation that
    can leave that range is followed by its wrap-around, written out.
    Pointers that the code tests against [NULL] are [option]s or [bool]s.
    Calls into the firmware that only produce output (logging, custom
    events) are recorded, in order, in a list of effects. *)

From Stdlib Require Import ZArith List String Ascii Bool Lia DecimalString.
Import ListNotations.
Open Scope Z_scope.

(** ** Fixed-width unsigned arithmetic *)

Definition wrap8 (z : Z) : Z := z mod 2 ^ 8.
Definition wrap16 (z : Z) : Z := z mod 2 ^ 16.
Definition wrap32 (z : Z) : Z := z mod 2 ^ 32.

(** ** Firmware types shared by the two scenes *)

Inductive InputType : Type :=
| InputTypePress | InputTypeRelease | InputTypeShort | InputTypeLong
| InputTypeRepeat.

Inductive InputKey : Type :=
| InputKeyUp | InputKeyDown | InputKeyRight | InputKeyLeft | InputKeyOk
| InputKeyBack.

Record InputEvent : Type := { ev_type : InputType; ev_key : InputKey }.

Inductive SceneManagerEventType : Type :=
| SceneManagerEventTypeCustom | SceneManagerEventTypeBack
| SceneManagerEventTypeTick.

Record SceneManagerEvent : Type :=
  { sme_type : SceneManagerEventType; sme_event : Z }.

Definition InputType_eqb (a b : InputType) : bool :=
  match a, b with
  | InputTypePress, InputTypePress | InputTypeRelease, InputTypeRelease
  | InputTypeShort, InputTypeShort | InputTypeLong, InputTypeLong
  | InputTypeRepeat, InputTypeRepeat => true
  | _, _ => false
  end.

Definition InputKey_eqb (a b : InputKey) : bool :=
  match a, b with
  | InputKeyUp, InputKeyUp | InputKeyDown, InputKeyDown
  | InputKeyRight, InputKeyRight | InputKeyLeft, InputKeyLeft
  | InputKeyOk, InputKeyOk | InputKeyBack, InputKeyBack => true
  | _, _ => false
  end.

(** The part of [PredatorApp] the scenes look at: whether
    [app->view_dispatcher] is non-NULL. *)
Record PredatorApp : Type := { view_dispatcher : bool }.

(** ** The dictionary-attack scene *)

Module DictAttack.

Inductive DictAttackStatus : Type :=
| DictAttackStatusIdle
| DictAttackStatusAttacking
| DictAttackStatusSuccess
| DictAttackStatusComplete.

(** [found_key] is a [char[32]] holding a C string; it is modelled by the
    string it holds (all zero bytes: the empty string). *)
Record DictAttackState : Type := {
  status : DictAttackStatus;
  frequency : Z;
  keys_tried : Z;
  total_keys : Z;
  attack_time_ms : Z;
  found_key : string;
  success : bool
}.

(** What the callbacks send out, in the order of the calls. *)
Inductive Effect : Type :=
| LogAppend (msg : string)                 (* predator_log_append(app, msg) *)
| LogProgress (tried total percent : Z)    (* "Progress: %lu/%lu (%lu%%)" *)
| LogTryKeeloq (index key : Z)             (* "[DICT] Trying Keeloq key ..." *)
| LogTryHitag2 (hitag_index : Z)           (* "[DICT] Trying Hitag2 key ..." *)
| SendCustomEvent (event : Z).             (* view_dispatcher_send_custom_event *)

(** The file's static variables, and the effects produced so far. *)
Record Globals : Type := {
  dict_state : DictAttackState;
  attack_start_tick : Z;
  trace : list Effect
}.

Definition set_status (s : DictAttackStatus) (st : DictAttackState)
  : DictAttackState :=
  {| status := s; frequency := frequency st; keys_tried := keys_tried st;
     total_keys := total_keys st; attack_time_ms := attack_time_ms st;
     found_key := found_key st; success := success st |}.

(** What a step of the scene is driven by. *)
Inductive Step : Type :=
| StepTimer (now : Z)
| StepInput (event : InputEvent) (now : Z)
| StepSceneEvent (event : SceneManagerEvent).

Section Corpus.

(** [KEELOQ_KEY_COUNT], [HITAG2_KEY_COUNT] and the table [KEELOQ_KEYS]
    come from [predator_crypto_keys.h], which is not part of the sources
    at hand: they are parameters.  The counts are compared and added as
    32-bit unsigned values, the width of the counters they meet; the
    table is read at an index. *)
Variables KEELOQ_KEY_COUNT HITAG2_KEY_COUNT : Z.
Variable KEELOQ_KEYS : Z -> Z.

(** [KEELOQ_KEY_COUNT + HITAG2_KEY_COUNT], as stored in a [uint32_t]. *)
Definition corpus_size : Z := wrap32 (KEELOQ_KEY_COUNT + HITAG2_KEY_COUNT).

(** [dict_attack_input_callback]; [now] is what [furi_get_tick()]
    returns.  The result is the returned flag and the new globals. *)
Definition dict_attack_input_callback
    (event : InputEvent) (context : option PredatorApp) (now : Z)
    (g : Globals) : bool * Globals :=
  match context with
  | None => (false, g)
  | Some app =>
    if InputType_eqb (ev_type event) InputTypeShort then
      if InputKey_eqb (ev_key event) InputKeyBack then (false, g)
      else if InputKey_eqb (ev_key event) InputKeyOk then
        match status (dict_state g) with
        | DictAttackStatusIdle =>
          (true,
           {| dict_state :=
                {| status := DictAttackStatusAttacking;
                   frequency := frequency (dict_state g);
                   keys_tried := 0;
                   total_keys := corpus_size;
                   attack_time_ms := 0;
                   found_key := found_key (dict_state g);
                   success := false |};
              attack_start_tick := now;
              trace := trace g ++
                [LogAppend "🔥 DICTIONARY ATTACK: 980+ keys loaded";
                 LogAppend "Testing all Keeloq + Hitag2 keys"] |})
        | DictAttackStatusAttacking =>
          (true,
           {| dict_state :=
                set_status DictAttackStatusComplete (dict_state g);
              attack_start_tick := attack_start_tick g;
              trace := trace g ++ [LogAppend "Dictionary attack stopped"] |})
        | _ => (true, g)
        end
      else (true, g)
    else (true, g)
  end.

(** The key looked up and logged by one attempt: nothing else is done
    with it. *)
Definition try_next_key (tried : Z) : list Effect :=
  if tried <? KEELOQ_KEY_COUNT then
    [LogTryKeeloq tried (KEELOQ_KEYS tried)]
  else if tried <? corpus_size then
    [LogTryHitag2 (wrap32 (tried - KEELOQ_KEY_COUNT))]
  else [].

(** [dict_attack_timer_callback]. *)
Definition dict_attack_timer_callback
    (context : option PredatorApp) (now : Z) (g : Globals) : Globals :=
  match context with
  | None => g
  | Some app =>
    let st := dict_state g in
    match status st with
    | DictAttackStatusAttacking =>
      let time := wrap32 (now - attack_start_tick g) in
      let tried := wrap32 (keys_tried st + 1) in
      let progress :=
        if (tried mod 50 =? 0) && (0 <? total_keys st) then
          [LogProgress tried (total_keys st)
                       (wrap32 (tried * 100) / total_keys st)]
        else [] in
      let finished := total_keys st <=? tried in
      {| dict_state :=
           {| status := if finished then DictAttackStatusComplete
                        else DictAttackStatusAttacking;
              frequency := frequency st;
              keys_tried := tried;
              total_keys := total_keys st;
              attack_time_ms := time;
              found_key := found_key st;
              success := success st |};
         attack_start_tick := attack_start_tick g;
         trace := trace g ++ try_next_key (keys_tried st) ++ progress ++
           (if finished then [LogAppend "Dictionary attack complete"]
            else []) ++
           (if view_dispatcher app then [SendCustomEvent 0] else []) |}
    | _ => g
    end
  end.

(** [predator_scene_dictionary_attack_ui_on_event]. *)
Definition predator_scene_dictionary_attack_ui_on_event
    (event : SceneManagerEvent) (g : Globals) : bool * Globals :=
  match sme_type event with
  | SceneManagerEventTypeBack =>
    (false,
     match status (dict_state g) with
     | DictAttackStatusAttacking =>
       {| dict_state := set_status DictAttackStatusComplete (dict_state g);
          attack_start_tick := attack_start_tick g;
          trace := trace g |}
     | _ => g
     end)
  | SceneManagerEventTypeCustom => (true, g)
  | _ => (false, g)
  end.

(** One step of the scene, with the context the callbacks were
    registered with. *)
Definition scene_step (app : PredatorApp) (g : Globals) (s : Step)
  : Globals :=
  match s with
  | StepTimer now => dict_attack_timer_callback (Some app) now g
  | StepInput event now =>
    snd (dict_attack_input_callback event (Some app) now g)
  | StepSceneEvent event =>
    snd (predator_scene_dictionary_attack_ui_on_event event g)
  end.

Definition scene_run (app : PredatorApp) (steps : list Step) (g : Globals)
  : Globals :=
  fold_left (scene_step app) steps g.

(** The timer firing at the given times, nothing in between. *)
Definition ticks (app : PredatorApp) (nows : list Z) (g : Globals)
  : Globals :=
  scene_run app (map StepTimer nows) g.

End Corpus.

(** [predator_scene_dictionary_attack_ui_on_enter], as far as it touches
    [dict_state]: the two early returns, then the [memset] and the two
    assignments.  The view and the timer it then sets up are what makes
    the steps above happen. *)
Definition predator_scene_dictionary_attack_ui_on_enter
    (context : option PredatorApp) (g : Globals) : Globals :=
  match context with
  | None => g
  | Some app =>
    if negb (view_dispatcher app) then g
    else
      {| dict_state :=
           {| status := DictAttackStatusIdle;
              frequency := 433920000;
              keys_tried := 0;
              total_keys := 0;
              attack_time_ms := 0;
              found_key := EmptyString;
              success := false |};
         attack_start_tick := attack_start_tick g;
         trace := trace g |}
  end.

(** [predator_scene_dictionary_attack_ui_on_exit], on [dict_state]. *)
Definition predator_scene_dictionary_attack_ui_on_exit
    (context : option PredatorApp) (g : Globals) : Globals :=
  match context with
  | None => g
  | Some _ =>
    {| dict_state := set_status DictAttackStatusIdle (dict_state g);
       attack_start_tick := attack_start_tick g;
       trace := trace g |}
  end.

(** The status line of [dict_attack_draw_callback]. *)
Definition status_text (s : DictAttackStatus) : string :=
  match s with
  | DictAttackStatusIdle => "Ready"
  | DictAttackStatusAttacking => "Attacking..."
  | DictAttackStatusSuccess => "SUCCESS!"
  | DictAttackStatusComplete => "Complete"
  end.

(** The "Key:" line of [dict_attack_draw_callback], when it is drawn. *)
Definition key_line (st : DictAttackState) : option string :=
  if success st && negb (String.eqb (found_key st) EmptyString)
  then Some (found_key st) else None.

(** The short press on OK. *)
Definition press_ok : InputEvent :=
  {| ev_type := InputTypeShort; ev_key := InputKeyOk |}.

End DictAttack.

(** ** The declarations of [predator_crypto_calypso.h] *)

Module Calypso.

(** *** C types, and the structs of the header as declared *)

Inductive ctype : Type :=
| Tuint8 | Tuint16 | Tuint32 | Tbool
| Tenum (name : string)
| Tarray (elem : ctype) (len : Z).

Definition struct_decl : Type := list (string * ctype).

Definition CalypsoCard_decl : struct_decl :=
  [ ("uid", Tarray Tuint8 4);
    ("atr", Tarray Tuint8 32);
    ("atr_len", Tuint8);
    ("card_number", Tuint32);
    ("card_type", Tenum "CalypsoCardType");
    ("revision", Tenum "CalypsoRevision");
    ("security", Tenum "CalypsoSecurityLevel");
    ("authenticated", Tbool) ]%string.

Definition CalypsoAuthContext_decl : struct_decl :=
  [ ("issuer_key", Tarray Tuint8 16);
    ("session_key", Tarray Tuint8 16);
    ("diversifier", Tarray Tuint8 8);
    ("challenge", Tarray Tuint8 8);
    ("key_index", Tuint8);
    ("security", Tenum "CalypsoSecurityLevel");
    ("authenticated", Tbool) ]%string.

Definition CalypsoContract_decl : struct_decl :=
  [ ("contract_number", Tuint8);
    ("tariff_code", Tuint8);
    ("profile_number", Tuint16);
    ("validity_start", Tarray Tuint8 3);
    ("validity_end", Tarray Tuint8 3);
    ("trip_counter", Tuint16);
    ("minutes_remaining", Tuint16);
    ("zones", Tarray Tuint8 8);
    ("is_active", Tbool) ]%string.

(** The type of member [name] of a struct, if it has one. *)
Fixpoint member (d : struct_decl) (name : string) : option ctype :=
  match d with
  | [] => None
  | (n, t) :: rest => if String.eqb n name then Some t else member rest name
  end.

(** The two shapes of member access the sources use: [p->name] and
    [p->name[index]]. *)
Inductive access : Type :=
| Field (name : string)
| Elem (name : string) (index : Z).

(** The type of an access, when the struct has the member, it has the
    shape the access needs and the index is inside the array. *)
Definition access_type (d : struct_decl) (a : access) : option ctype :=
  match a with
  | Field name =>
    match member d name with
    | Some (Tarray _ _) => None
    | other => other
    end
  | Elem name index =>
    match member d name with
    | Some (Tarray elem len) =>
      if (0 <=? index) && (index <? len) then Some elem else None
    | _ => None
    end
  end.

(** The [uint8_t] arrays of a struct, with their lengths, in the order of
    declaration. *)
Fixpoint byte_arrays (d : struct_decl) : list (string * Z) :=
  match d with
  | [] => []
  | (n, Tarray Tuint8 len) :: rest => (n, len) :: byte_arrays rest
  | _ :: rest => byte_arrays rest
  end.

(** *** Values of the enums and structs *)

Inductive CalypsoCardType : Type :=
| Calypso_Unknown | Calypso_Navigo | Calypso_Lyon_TCL | Calypso_MOBIB
| Calypso_VivaViagem | Calypso_Andante | Calypso_Athens | Calypso_Generic.

Inductive CalypsoRevision : Type :=
| Calypso_Rev1 | Calypso_Rev2 | Calypso_Rev3 | Calypso_Rev3_Light.

Inductive CalypsoSecurityLevel : Type :=
| Calypso_Security_None | Calypso_Security_DES | Calypso_Security_3DES
| Calypso_Security_AES128.

Record CalypsoCard : Type := {
  uid : list Z;
  atr : list Z;
  atr_len : Z;
  card_number : Z;
  card_type : CalypsoCardType;
  revision : CalypsoRevision;
  card_security : CalypsoSecurityLevel;
  card_authenticated : bool
}.

Record CalypsoAuthContext : Type := {
  issuer_key : list Z;
  session_key : list Z;
  diversifier : list Z;
  challenge : list Z;
  key_index : Z;
  security : CalypsoSecurityLevel;
  authenticated : bool
}.

Record CalypsoContract : Type := {
  contract_number : Z;
  tariff_code : Z;
  profile_number : Z;
  validity_start : list Z;
  validity_end : list Z;
  trip_counter : Z;
  minutes_remaining : Z;
  zones : list Z;
  is_active : bool
}.

(** A member of a struct value: a scalar or an array. *)
Inductive cvalue : Type :=
| Scalar (v : Z)
| Array (vs : list Z).

(** The members of a [CalypsoContract] value, by name. *)
Definition CalypsoContract_members (c : CalypsoContract)
  : list (string * cvalue) :=
  [ ("contract_number", Scalar (contract_number c));
    ("tariff_code", Scalar (tariff_code c));
    ("profile_number", Scalar (profile_number c));
    ("validity_start", Array (validity_start c));
    ("validity_end", Array (validity_end c));
    ("trip_counter", Scalar (trip_counter c));
    ("minutes_remaining", Scalar (minutes_remaining c));
    ("zones", Array (zones c));
    ("is_active", Scalar (if is_active c then 1 else 0)) ]%string.

Fixpoint member_value (ms : list (string * cvalue)) (name : string)
  : option cvalue :=
  match ms with
  | [] => None
  | (n, v) :: rest =>
    if String.eqb n name then Some v else member_value rest name
  end.

(** What [contract->name] or [contract->name[index]] reads; [None] where the
    struct has no such member or element. *)
Definition read (c : CalypsoContract) (a : access) : option Z :=
  match a with
  | Field name =>
    match member_value (CalypsoContract_members c) name with
    | Some (Scalar v) => Some v
    | _ => None
    end
  | Elem name index =>
    match member_value (CalypsoContract_members c) name with
    | Some (Array vs) =>
      if 0 <=? index then nth_error vs (Z.to_nat index) else None
    | _ => None
    end
  end.

(** The values of a [uint8_t]. *)
Definition byte (v : Z) : Prop := 0 <= v < 256.

End Calypso.

(** ** Operations the header only declares *)

Module CalypsoOps.
Import Calypso.

(** Modelled from the spec: the kinds of failure of its error taxonomy,
    which the header does not declare; the declared result of every
    operation is a [bool], true if successful. *)
Inductive ErrorKind : Type :=
| TransportFailure | ProtocolReject | InvalidInput | NotAuthenticated.

Inductive Outcome : Type :=
| Done
| Failed (e : ErrorKind).

Definition returned (o : Outcome) : bool :=
  match o with Done => true | Failed _ => false end.

(** Modelled from the spec: the commands of the write operations as they
    reach the transport, which is not part of the sources; the amount
    field of a counter command is three bytes. *)
Inductive Command : Type :=
| UpdateRecord (file_id record_number : Z) (data : list Z)
| IncreaseCounter (counter_number : Z) (amount_field : list Z)
| DecreaseCounter (counter_number : Z) (amount_field : list Z).

(** Modelled from the spec: what the transport gives back, a response of
    the card (accepting or refusing), a timeout or a transport error. *)
Inductive Response : Type :=
| Accepted
| Refused
| Timeout
| TransportError.

(** Modelled from the spec: a refusal of the card is a [ProtocolReject],
    a timeout or transport error a [TransportFailure]. *)
Definition outcome_of (r : Response) : Outcome :=
  match r with
  | Accepted => Done
  | Refused => Failed ProtocolReject
  | Timeout | TransportError => Failed TransportFailure
  end.

(** Modelled from the spec: a value in the three bytes of the amount
    field, and back.  The order of the bytes is not fixed there; they are
    listed most significant first. *)
Definition amount_field (a : Z) : list Z :=
  [a / 65536 mod 256; a / 256 mod 256; a mod 256].

Definition field_value (f : list Z) : Z :=
  fold_left (fun acc b => acc * 256 + b) f 0.

Definition command_amount (c : Command) : option Z :=
  match c with
  | UpdateRecord _ _ _ => None
  | IncreaseCounter _ f | DecreaseCounter _ f => Some (field_value f)
  end.

Section Transport.

(** The transport and the card behind it: what comes back for a
    command. *)
Variable exchange : Command -> Response.

(** Modelled from the spec: the body of [calypso_update_record], of which
    the header has the prototype only.  The state must be
    [Authenticated], else the operation fails at once with no exchange;
    it sends one command.  [sent] is the list of the commands exchanged
    so far.  The arguments are converted to the parameter types of the
    prototype: [uint8_t file_id], [uint8_t record_number],
    [uint32_t len]; [auth_ctx] is a pointer to [const]. *)
Definition calypso_update_record
    (auth_ctx : CalypsoAuthContext) (file_id record_number : Z)
    (data : list Z) (len : Z) (sent : list Command)
  : Outcome * list Command :=
  if negb (authenticated auth_ctx) then (Failed NotAuthenticated, sent)
  else
    let cmd := UpdateRecord (wrap8 file_id) (wrap8 record_number)
                            (firstn (Z.to_nat (wrap32 len)) data) in
    (outcome_of (exchange cmd), sent ++ [cmd]).

(** Modelled from the spec: the body of [calypso_increase_counter], of
    which the header has the prototype only: one command with a 3-byte
    amount field, in the [Authenticated] state only.  The prototype
    declares [uint8_t counter_number] and [uint16_t amount], to which the
    arguments are converted. *)
Definition calypso_increase_counter
    (auth_ctx : CalypsoAuthContext) (counter_number amount : Z)
    (sent : list Command) : Outcome * list Command :=
  if negb (authenticated auth_ctx) then (Failed NotAuthenticated, sent)
  else
    let cmd := IncreaseCounter (wrap8 counter_number)
                               (amount_field (wrap16 amount)) in
    (outcome_of (exchange cmd), sent ++ [cmd]).

(** Modelled from the spec: the body of [calypso_decrease_counter], of
    which the header has the prototype only; as
    [calypso_increase_counter]. *)
Definition calypso_decrease_counter
    (auth_ctx : CalypsoAuthContext) (counter_number amount : Z)
    (sent : list Command) : Outcome * list Command :=
  if negb (authenticated auth_ctx) then (Failed NotAuthenticated, sent)
  else
    let cmd := DecreaseCounter (wrap8 counter_number)
                               (amount_field (wrap16 amount)) in
    (outcome_of (exchange cmd), sent ++ [cmd]).

End Transport.

(** The three operations that need an authenticated session, with their
    arguments. *)
Inductive AuthenticatedOp : Type :=
| OpUpdateRecord (file_id record_number : Z) (data : list Z) (len : Z)
| OpIncreaseCounter (counter_number amount : Z)
| OpDecreaseCounter (counter_number amount : Z).

Definition run_op (exchange : Command -> Response)
    (auth_ctx : CalypsoAuthContext) (op : AuthenticatedOp)
    (sent : list Command) : Outcome * list Command :=
  match op with
  | OpUpdateRecord f r d l =>
    calypso_update_record exchange auth_ctx f r d l sent
  | OpIncreaseCounter c a => calypso_increase_counter exchange auth_ctx c a sent
  | OpDecreaseCounter c a => calypso_decrease_counter exchange auth_ctx c a sent
  end.

End CalypsoOps.

(** ** The contracts viewer *)

Module Contracts.
Import Calypso.

Record ContractsState : Type := {
  card : CalypsoCard;
  contracts : list CalypsoContract;     (* CalypsoContract contracts[4] *)
  contract_count : Z;
  selected_index : Z;
  status_text : string
}.

Definition set_selected_index (i : Z) (st : ContractsState) : ContractsState :=
  {| card := card st; contracts := contracts st;
     contract_count := contract_count st; selected_index := i;
     status_text := status_text st |}.

(** *** Text formatting *)

(** ["%02X"] of a [uint8_t]. *)
Definition hex_digit (d : Z) : ascii :=
  if d <? 10 then ascii_of_nat (Z.to_nat (48 + d))
  else ascii_of_nat (Z.to_nat (55 + d)).

Definition hex2 (b : Z) : string :=
  String (hex_digit (b / 16)) (String (hex_digit (b mod 16)) EmptyString).

(** Reading two hexadecimal digits back. *)
Definition hex_value (a : ascii) : option Z :=
  let n := Z.of_nat (nat_of_ascii a) in
  if (48 <=? n) && (n <=? 57) then Some (n - 48)
  else if (65 <=? n) && (n <=? 70) then Some (n - 55)
  else None.

Definition unhex2 (s : string) : option Z :=
  match s with
  | String h (String l EmptyString) =>
    match hex_value h, hex_value l with
    | Some x, Some y => Some (16 * x + y)
    | _, _ => None
    end
  | _ => None
  end.

(** ["%u"] and ["%lu"]. *)
Definition dec (n : Z) : string :=
  DecimalString.NilZero.string_of_uint (N.to_uint (Z.to_N n)).

(** *** Drawing *)

Inductive Font : Type := FontPrimary | FontSecondary.

(** The canvas calls.  The text of a string is [None] where a member
    access among its arguments does not resolve in the struct. *)
Inductive DrawOp : Type :=
| CanvasClear
| CanvasSetFont (f : Font)
| CanvasDrawStr (x y : Z) (text : option string)
| CanvasDrawLine (x1 y1 x2 y2 : Z).

(** The lines about the selected contract, from the members the callback
    names. *)
Definition header_line (c : CalypsoContract) : option string :=
  match read c (Field "is_active"), read c (Field "contract_number") with
  | Some a, Some n =>
    Some ((if Z.eqb a 0 then "✗" else "✓") ++ " Contract #" ++ dec n)%string
  | _, _ => None
  end.

Definition active_line (c : CalypsoContract) : option string :=
  match read c (Field "is_active") with
  | Some a => Some (if Z.eqb a 0 then "Inactive" else "Active")%string
  | None => None
  end.

Definition date_line (prefix member : string) (c : CalypsoContract)
  : option string :=
  match read c (Elem member 2), read c (Elem member 1),
        read c (Elem member 0) with
  | Some d, Some m, Some y =>
    Some (prefix ++ hex2 d ++ "/" ++ hex2 m ++ "/" ++ hex2 y)%string
  | _, _, _ => None
  end.

Definition valid_start_line : CalypsoContract -> option string :=
  date_line "Valid from: " "validity_start".

Definition valid_end_line : CalypsoContract -> option string :=
  date_line "Valid until: " "validity_end".

(** The tariff line, from [contract->tariff[0]] and
    [contract->tariff[1]]. *)
Definition tariff_line (c : CalypsoContract) : option string :=
  match read c (Elem "tariff" 0), read c (Elem "tariff" 1) with
  | Some a, Some b => Some ("Tariff: " ++ hex2 a ++ hex2 b)%string
  | _, _ => None
  end.

(** What [contracts_draw_callback] does: nothing when [state] is NULL;
    else the canvas calls, with the index at which it read the
    [contracts] array, if it read it; an index outside the array is
    singled out. *)
Inductive DrawResult : Type :=
| NotDrawn
| Drawn (array_read : option Z) (ops : list DrawOp)
| OutOfBounds (index : Z).

Definition contracts_draw_callback (state : option ContractsState)
  : DrawResult :=
  match state with
  | None => NotDrawn
  | Some st =>
    let title := [CanvasClear; CanvasSetFont FontPrimary;
                  CanvasDrawStr 2 10 (Some "Contracts"%string)] in
    if contract_count st =? 0 then
      Drawn None
        (title ++ [CanvasSetFont FontSecondary;
                   CanvasDrawStr 2 30 (Some "No contracts found"%string)])
    else
      match (if 0 <=? selected_index st
             then nth_error (contracts st) (Z.to_nat (selected_index st))
             else None) with
      | None => OutOfBounds (selected_index st)
      | Some contract =>
        Drawn (Some (selected_index st))
          (title ++
           [CanvasSetFont FontSecondary;
            CanvasDrawStr 2 20 (header_line contract);
            CanvasDrawStr 2 29 (active_line contract);
            CanvasDrawStr 2 38 (valid_start_line contract);
            CanvasDrawStr 2 46 (valid_end_line contract);
            CanvasDrawStr 2 54 (tariff_line contract)] ++
           (if 1 <? contract_count st then
              [CanvasDrawStr 80 10
                 (Some ("◀ " ++ dec (wrap32 (selected_index st + 1)) ++ "/" ++
                        dec (contract_count st) ++ " ▶")%string)]
            else []) ++
           [CanvasDrawLine 0 60 128 60;
            CanvasDrawStr 2 63 (Some (status_text st))])
      end
  end.

(** The index at which a drawing read the array. *)
Definition array_read_of (r : DrawResult) : option Z :=
  match r with
  | Drawn i _ => i
  | OutOfBounds i => Some i
  | NotDrawn => None
  end.

(** *** Input *)

Inductive SceneEffect : Type :=
| PreviousScene        (* scene_manager_previous_scene *)
| ViewPortUpdate.      (* view_port_update *)

(** [contracts_input_callback]: the returned flag, the new state and the
    calls made. *)
Definition contracts_input_callback (event : InputEvent) (st : ContractsState)
  : bool * ContractsState * list SceneEffect :=
  if InputType_eqb (ev_type event) InputTypeShort then
    if InputKey_eqb (ev_key event) InputKeyBack then
      (true, st, [PreviousScene])
    else if InputKey_eqb (ev_key event) InputKeyLeft &&
            (0 <? selected_index st) then
      (true, set_selected_index (wrap32 (selected_index st - 1)) st,
       [ViewPortUpdate])
    else if InputKey_eqb (ev_key event) InputKeyRight &&
            (selected_index st <? wrap32 (contract_count st - 1)) then
      (true, set_selected_index (wrap32 (selected_index st + 1)) st,
       [ViewPortUpdate])
    else (false, st, [])
  else (false, st, []).

Definition input_step (st : ContractsState) (event : InputEvent)
  : ContractsState :=
  snd (fst (contracts_input_callback event st)).

Definition inputs (events : list InputEvent) (st : ContractsState)
  : ContractsState :=
  fold_left input_step events st.

(** *** Entering the scene *)

Definition zero_card : CalypsoCard :=
  {| uid := repeat 0 4; atr := repeat 0 32; atr_len := 0; card_number := 0;
     card_type := Calypso_Unknown; revision := Calypso_Rev1;
     card_security := Calypso_Security_None; card_authenticated := false |}.

Definition zero_contract : CalypsoContract :=
  {| contract_number := 0; tariff_code := 0; profile_number := 0;
     validity_start := repeat 0 3; validity_end := repeat 0 3;
     trip_counter := 0; minutes_remaining := 0; zones := repeat 0 8;
     is_active := false |}.

(** [predator_scene_calypso_contracts_on_enter]: the state is zeroed and,
    the call that would read the contracts being commented out, stays
    so. *)
Definition predator_scene_calypso_contracts_on_enter : ContractsState :=
  let count := 0 in
  {| card := zero_card; contracts := repeat zero_contract 4;
     contract_count := count; selected_index := 0;
     status_text := if 1 <? count then "◀/▶ Switch, Back to exit"%string
                    else "Back to exit"%string |}.

(** The state on entering, had the commented-out call stored [count]
    contracts read from the card. *)
Definition entered_with (cs : list CalypsoContract) (count : Z)
  : ContractsState :=
  {| card := zero_card; contracts := cs;
     contract_count := count; selected_index := 0;
     status_text := if 1 <? count then "◀/▶ Switch, Back to exit"%string
                    else "Back to exit"%string |}.

Definition press (k : InputKey) : InputEvent :=
  {| ev_type := InputTypeShort; ev_key := k |}.

End Contracts.

(** ** Runs and statements used below *)

Module Statements.
Import DictAttack Calypso CalypsoOps Contracts.

(** An attack from entering the scene: the scene is entered, OK is
    pressed at [now0], then the timer fires at the times [nows] with
    nothing in between. *)
Definition attack (KEELOQ_KEY_COUNT HITAG2_KEY_COUNT : Z) (KEELOQ_KEYS : Z -> Z)
    (app : PredatorApp) (g0 : Globals) (now0 : Z) (nows : list Z) : Globals :=
  ticks KEELOQ_KEY_COUNT HITAG2_KEY_COUNT KEELOQ_KEYS app nows
    (snd (dict_attack_input_callback KEELOQ_KEY_COUNT HITAG2_KEY_COUNT
            press_ok (Some app) now0
            (predator_scene_dictionary_attack_ui_on_enter (Some app) g0))).

(** Any execution of the scene from entering it. *)
Definition scene (KEELOQ_KEY_COUNT HITAG2_KEY_COUNT : Z) (KEELOQ_KEYS : Z -> Z)
    (app : PredatorApp) (g0 : Globals) (steps : list Step) : Globals :=
  scene_run KEELOQ_KEY_COUNT HITAG2_KEY_COUNT KEELOQ_KEYS app steps
    (predator_scene_dictionary_attack_ui_on_enter (Some app) g0).

(** The card accepts the key at index [i] of the corpus and none before
    it. *)
Definition true_key_at (accepts : Z -> bool) (i : Z) : Prop :=
  accepts i = true /\ forall j, 0 <= j < i -> accepts j = false.

(** "If the true key is at index [i], the engine reports success after
    exactly [i+1] attempts." *)
Definition success_after_true_key
    (KEELOQ_KEY_COUNT HITAG2_KEY_COUNT : Z) (KEELOQ_KEYS : Z -> Z)
    (accepts : Z -> bool) (i : Z) : Prop :=
  true_key_at accepts i ->
  forall app g0 now0 nows,
    view_dispatcher app = true ->
    Z.of_nat (List.length nows) = i + 1 ->
    status (dict_state (attack KEELOQ_KEY_COUNT HITAG2_KEY_COUNT KEELOQ_KEYS
                               app g0 now0 nows))
    = DictAttackStatusSuccess.

(** "The first key for which authentication succeeds terminates the loop
    early and is reported as the found key": no attempt is made after it,
    however often the timer fires, and a key is shown. *)
Definition stops_at_first_accepted
    (KEELOQ_KEY_COUNT HITAG2_KEY_COUNT : Z) (KEELOQ_KEYS : Z -> Z)
    (accepts : Z -> bool) (i : Z) : Prop :=
  true_key_at accepts i ->
  forall app g0 now0 nows,
    view_dispatcher app = true ->
    i + 1 <= Z.of_nat (List.length nows) ->
    let st := dict_state (attack KEELOQ_KEY_COUNT HITAG2_KEY_COUNT KEELOQ_KEYS
                                 app g0 now0 nows) in
    keys_tried st = i + 1 /\ key_line st <> None.

(** What holds of the globals throughout an execution of the scene over
    a corpus of [N] keys. *)
Definition scene_inv (N : Z) (g : Globals) : Prop :=
  let st := dict_state g in
  0 <= keys_tried st /\ 0 <= total_keys st < 2 ^ 32 /\
  status st <> DictAttackStatusSuccess /\
  success st = false /\ found_key st = EmptyString /\
  (status st = DictAttackStatusAttacking ->
   total_keys st = N /\ (keys_tried st < N \/ keys_tried st = 0)) /\
  (0 < N -> keys_tried st <= total_keys st).

(** The statics of the scene as the program starts: all zero. *)
Definition initial_globals : Globals :=
  {| dict_state :=
       {| status := DictAttackStatusIdle; frequency := 0; keys_tried := 0;
          total_keys := 0; attack_time_ms := 0; found_key := EmptyString;
          success := false |};
     attack_start_tick := 0;
     trace := [] |}.

Definition app_with_dispatcher : PredatorApp := {| view_dispatcher := true |}.

Definition back_event : SceneManagerEvent :=
  {| sme_type := SceneManagerEventTypeBack; sme_event := 0 |}.

(** Is an effect the log of a key being tried? *)
Definition is_key_log (e : Effect) : bool :=
  match e with
  | LogTryKeeloq _ _ | LogTryHitag2 _ => true
  | _ => false
  end.

(** "The operation accepts and transmits an amount spanning the full
    3-byte range": every amount up to 16,777,215 reaches the card in the
    one command sent. *)
Definition transmits_full_range (op : Z -> Z -> AuthenticatedOp) : Prop :=
  forall exchange auth_ctx counter_number amount sent,
    authenticated auth_ctx = true ->
    0 <= amount <= 16777215 ->
    exists cmd,
      snd (run_op exchange auth_ctx (op counter_number amount) sent)
      = sent ++ [cmd] /\
      command_amount cmd = Some amount.

(** "The context holds both the reader challenge and the card challenge,
    8 bytes each": two distinct 8-byte members besides the diversifier. *)
Definition holds_both_challenges (d : struct_decl) : Prop :=
  exists reader card_ : string,
    reader <> card_ /\
    reader <> "diversifier"%string /\ card_ <> "diversifier"%string /\
    member d reader = Some (Tarray Tuint8 8) /\
    member d card_ = Some (Tarray Tuint8 8).

End Statements.

(** ** The rest of the dictionary-attack view *)

Module DictAttackView.
Import DictAttack.

(** The canvas calls of [dict_attack_draw_callback]. *)
Inductive CanvasOp : Type :=
| Clear
| SetColorBlack
| SetFont (primary : bool)
| DrawStr (x y : Z) (text : string)
| DrawLine (x1 y1 x2 y2 : Z)
| DrawFrame (x y width height : Z)
| DrawBox (x y width height : Z).

(** The width of the progress bar: [uint8_t progress], capped at 122;
    no bar is drawn when [total_keys] is 0. *)
Definition progress_bar (st : DictAttackState) : option Z :=
  if 0 <? total_keys st then
    let progress := wrap8 (wrap32 (keys_tried st * 122) / total_keys st) in
    Some (if 122 <? progress then 122 else progress)
  else None.

(** The line of controls at the bottom, with its column. *)
Definition controls_hint (s : DictAttackStatus) : Z * string :=
  match s with
  | DictAttackStatusIdle => (20, "OK=Start  Back=Exit"%string)
  | DictAttackStatusAttacking => (25, "OK=Stop  Back=Exit"%string)
  | _ => (40, "Back=Exit"%string)
  end.

(** [dict_attack_draw_callback], on the state it draws. *)
Definition dict_attack_draw_callback (st : DictAttackState) : list CanvasOp :=
  [Clear; SetColorBlack; SetFont true;
   DrawStr 2 10 "🔥 DICTIONARY ATTACK";
   DrawLine 0 12 128 12;
   SetFont false;
   DrawStr 2 22 "Status:";
   DrawStr 45 22 (status_text (status st));
   DrawStr 2 32 ("Keys: " ++ Contracts.dec (keys_tried st) ++ "/" ++
                 Contracts.dec (total_keys st));
   DrawFrame 2 36 124 6] ++
  match progress_bar st with
  | Some progress => [DrawBox 3 37 progress 4]
  | None => []
  end ++
  [DrawStr 2 48 ("Time: " ++ Contracts.dec (attack_time_ms st / 1000) ++ "s")] ++
  match key_line st with
  | Some key => [DrawStr 2 56 "Key:"; DrawStr 25 56 key]
  | None => []
  end ++
  [DrawStr (fst (controls_hint (status st))) 64
           (snd (controls_hint (status st)))].

(** The indices [0 .. n-1]. *)
Definition indices (n : Z) : list Z := map Z.of_nat (seq 0 (Z.to_nat n)).

(** The log entry of the attempt on the key at index [k]. *)
Definition key_log (KEELOQ_KEY_COUNT : Z) (KEELOQ_KEYS : Z -> Z) (k : Z)
  : Effect :=
  if k <? KEELOQ_KEY_COUNT then LogTryKeeloq k (KEELOQ_KEYS k)
  else LogTryHitag2 (k - KEELOQ_KEY_COUNT).

Definition is_progress_log (e : Effect) : bool :=
  match e with LogProgress _ _ _ => true | _ => false end.

Definition is_custom_event (e : Effect) : bool :=
  match e with SendCustomEvent _ => true | _ => false end.

(** A filter on effects that lets no [predator_log_append] of a fixed
    message through. *)
Definition drops_messages (f : Effect -> bool) : Prop :=
  forall msg, f (LogAppend msg) = false.

(** What an execution keeps besides [scene_inv]: before the start nothing
    is counted and no total is set; from the start on the total is the
    size of the corpus. *)
Definition start_inv (N : Z) (g : Globals) : Prop :=
  let st := dict_state g in
  (status st = DictAttackStatusIdle ->
   keys_tried st = 0 /\ total_keys st = 0) /\
  (status st <> DictAttackStatusIdle -> total_keys st = N).

End DictAttackView.

(** ** The rest of the contracts view *)

Module ContractsView.
Import Calypso Contracts.

(** Both validity dates are three bytes. *)
Definition dates_well_formed (c : CalypsoContract) : Prop :=
  List.length (validity_start c) = 3%nat /\ Forall byte (validity_start c) /\
  List.length (validity_end c) = 3%nat /\ Forall byte (validity_end c).

(** The parts of the result of [contracts_input_callback]. *)
Definition consumed (r : bool * ContractsState * list SceneEffect) : bool :=
  fst (fst r).

Definition state_after (r : bool * ContractsState * list SceneEffect)
  : ContractsState :=
  snd (fst r).

Definition calls (r : bool * ContractsState * list SceneEffect)
  : list SceneEffect :=
  snd r.

End ContractsView.

(** * Properties *)

(** ** The dictionary-attack scene *)

Module DictAttackProofs.
Import DictAttack Statements.

Lemma wrap32_small (z : Z) : 0 <= z < 2 ^ 32 -> wrap32 z = z.
Proof. intros Hz. unfold wrap32. apply Z.mod_small. exact Hz. Qed.

Lemma wrap32_range (z : Z) : 0 <= wrap32 z < 2 ^ 32.
Proof. unfold wrap32. apply Z.mod_pos_bound. lia. Qed.

Section Scene.

Variables KEELOQ_KEY_COUNT HITAG2_KEY_COUNT : Z.
Variable KEELOQ_KEYS : Z -> Z.
Variable app : PredatorApp.

Let N := corpus_size KEELOQ_KEY_COUNT HITAG2_KEY_COUNT.
Let step := scene_step KEELOQ_KEY_COUNT HITAG2_KEY_COUNT KEELOQ_KEYS app.
Let run := scene_run KEELOQ_KEY_COUNT HITAG2_KEY_COUNT KEELOQ_KEYS app.
Let tick (now : Z) :=
  dict_attack_timer_callback KEELOQ_KEY_COUNT HITAG2_KEY_COUNT KEELOQ_KEYS
    (Some app) now.

Lemma N_range : 0 <= N < 2 ^ 32.
Proof. apply wrap32_range. Qed.

(** A tick outside an attack changes nothing at all. *)
Lemma tick_not_attacking (now : Z) (g : Globals) :
  status (dict_state g) <> DictAttackStatusAttacking -> tick now g = g.
Proof.
  unfold tick, dict_attack_timer_callback.
  destruct (status (dict_state g)); congruence.
Qed.

(** A tick during an attack, spelled out. *)
Lemma tick_attacking (now : Z) (g : Globals) :
  status (dict_state g) = DictAttackStatusAttacking ->
  0 <= keys_tried (dict_state g) < 2 ^ 32 - 1 ->
  let st := dict_state g in
  let st' := dict_state (tick now g) in
  keys_tried st' = keys_tried st + 1 /\
  total_keys st' = total_keys st /\
  success st' = success st /\ found_key st' = found_key st /\
  status st' = (if total_keys st <=? keys_tried st + 1
                then DictAttackStatusComplete
                else DictAttackStatusAttacking).
Proof.
  intros Hs Hk. unfold tick, dict_attack_timer_callback. rewrite Hs. simpl.
  rewrite (wrap32_small (keys_tried (dict_state g) + 1)) by lia.
  repeat split; reflexivity.
Qed.

Lemma scene_inv_enter (g0 : Globals) :
  view_dispatcher app = true ->
  scene_inv N (predator_scene_dictionary_attack_ui_on_enter (Some app) g0).
Proof.
  intros Hvd. unfold predator_scene_dictionary_attack_ui_on_enter.
  rewrite Hvd. simpl. unfold scene_inv. simpl.
  repeat split; try lia; try congruence; discriminate.
Qed.

Lemma scene_inv_step (g : Globals) (s : Step) :
  scene_inv N g -> scene_inv N (step g s).
Proof.
  intros (Hk & Ht & Hns & Hsu & Hfk & Hatt & Hle).
  pose proof N_range as HN.
  destruct s as [now | event now | event]; unfold step, scene_step.
  - (* timer *)
    fold (tick now). destruct (status (dict_state g)) eqn:Hs.
    all: try (rewrite tick_not_attacking by (rewrite Hs; discriminate);
              unfold scene_inv; rewrite Hs; repeat split;
              try tauto; try lia; try discriminate).
    destruct (Hatt eq_refl) as [HtN Hlt].
    destruct (tick_attacking now g Hs ltac:(lia)) as (E1 & E2 & E3 & E4 & E5).
    cbv zeta in E1, E2, E3, E4, E5.
    unfold scene_inv. cbv zeta. rewrite E1, E2, E3, E4, E5.
    destruct (Z.leb_spec (total_keys (dict_state g))
                         (keys_tried (dict_state g) + 1));
      repeat split; try lia; try congruence; try discriminate.
  - (* input *)
    unfold dict_attack_input_callback.
    destruct (InputType_eqb (ev_type event) InputTypeShort);
      [ | simpl; unfold scene_inv; tauto ].
    destruct (InputKey_eqb (ev_key event) InputKeyBack);
      [ simpl; unfold scene_inv; tauto | ].
    destruct (InputKey_eqb (ev_key event) InputKeyOk);
      [ | simpl; unfold scene_inv; tauto ].
    destruct (status (dict_state g)) eqn:Hs; simpl;
      try (unfold scene_inv; rewrite Hs; tauto).
    + unfold scene_inv; simpl. fold N.
      repeat split; try lia; try congruence; try discriminate.
    + unfold scene_inv; simpl.
      repeat split; try lia; try congruence; try discriminate.
  - (* scene event *)
    unfold predator_scene_dictionary_attack_ui_on_event.
    destruct (sme_type event); simpl; try (unfold scene_inv; tauto).
    destruct (status (dict_state g)) eqn:Hs;
      try (unfold scene_inv; rewrite Hs; tauto).
    unfold scene_inv; simpl.
    repeat split; try lia; try congruence; try discriminate.
Qed.

Lemma scene_inv_run (steps : list Step) (g : Globals) :
  scene_inv N g -> scene_inv N (run steps g).
Proof.
  revert g. induction steps as [ | s steps IH]; intros g Hg; simpl.
  - exact Hg.
  - apply IH. apply scene_inv_step. exact Hg.
Qed.

(** Once the status is neither idle nor attacking, no step changes the
    state of the attack. *)
Lemma step_after_end (g : Globals) (s : Step) :
  status (dict_state g) <> DictAttackStatusAttacking ->
  status (dict_state g) <> DictAttackStatusIdle ->
  dict_state (step g s) = dict_state g.
Proof.
  intros Ha Hi. destruct s as [now | event now | event];
    unfold step, scene_step.
  - fold (tick now). rewrite tick_not_attacking by exact Ha. reflexivity.
  - unfold dict_attack_input_callback.
    destruct (InputType_eqb (ev_type event) InputTypeShort); [ | reflexivity].
    destruct (InputKey_eqb (ev_key event) InputKeyBack); [reflexivity | ].
    destruct (InputKey_eqb (ev_key event) InputKeyOk); [ | reflexivity].
    destruct (status (dict_state g)); simpl; congruence.
  - unfold predator_scene_dictionary_attack_ui_on_event.
    destruct (sme_type event); simpl; try reflexivity.
    destruct (status (dict_state g)); simpl; congruence.
Qed.

Lemma run_after_end (steps : list Step) (g : Globals) :
  status (dict_state g) <> DictAttackStatusAttacking ->
  status (dict_state g) <> DictAttackStatusIdle ->
  dict_state (run steps g) = dict_state g.
Proof.
  revert g. induction steps as [ | s steps IH]; intros g Ha Hi; simpl.
  - reflexivity.
  - pose proof (step_after_end g s Ha Hi) as E.
    change (dict_state (run steps (step g s)) = dict_state g).
    rewrite (IH (step g s)).
    + exact E.
    + rewrite E. exact Ha.
    + rewrite E. exact Hi.
Qed.

(** A step that ends an attack leaves the status complete. *)
Lemma step_leaves_attacking (g : Globals) (s : Step) :
  scene_inv N g ->
  status (dict_state g) = DictAttackStatusAttacking ->
  status (dict_state (step g s)) <> DictAttackStatusAttacking ->
  status (dict_state (step g s)) = DictAttackStatusComplete.
Proof.
  intros Hinv Ha Hn.
  pose proof (scene_inv_step g s Hinv) as (_ & _ & Hns & _).
  destruct s as [now | event now | event]; unfold step, scene_step in *.
  - fold (tick now) in *.
    destruct Hinv as (Hk & Ht & _ & _ & _ & Hatt & _).
    destruct (Hatt Ha) as [HtN Hlt]. pose proof N_range.
    destruct (tick_attacking now g Ha ltac:(lia)) as (_ & _ & _ & _ & E5).
    cbv zeta in E5. rewrite E5 in *.
    destruct (total_keys (dict_state g) <=? keys_tried (dict_state g) + 1);
      congruence.
  - unfold dict_attack_input_callback in *.
    destruct (InputType_eqb (ev_type event) InputTypeShort);
      [ | simpl in *; congruence].
    destruct (InputKey_eqb (ev_key event) InputKeyBack);
      [simpl in *; congruence | ].
    destruct (InputKey_eqb (ev_key event) InputKeyOk);
      [ | simpl in *; congruence].
    rewrite Ha in *. reflexivity.
  - unfold predator_scene_dictionary_attack_ui_on_event in *.
    destruct (sme_type event); simpl in *; try congruence.
    rewrite Ha in *. reflexivity.
Qed.

Lemma ticks_nil (g : Globals) :
  ticks KEELOQ_KEY_COUNT HITAG2_KEY_COUNT KEELOQ_KEYS app [] g = g.
Proof. reflexivity. Qed.

Lemma ticks_cons (now : Z) (nows : list Z) (g : Globals) :
  ticks KEELOQ_KEY_COUNT HITAG2_KEY_COUNT KEELOQ_KEYS app (now :: nows) g
  = ticks KEELOQ_KEY_COUNT HITAG2_KEY_COUNT KEELOQ_KEYS app nows (tick now g).
Proof. reflexivity. Qed.

(** The timer firing [length nows] times during an attack with that many
    keys left. *)
Lemma ticks_progress (nows : list Z) (g : Globals) :
  status (dict_state g) = DictAttackStatusAttacking ->
  total_keys (dict_state g) = N ->
  0 <= keys_tried (dict_state g) < N ->
  keys_tried (dict_state g) + Z.of_nat (List.length nows) <= N ->
  let g' := ticks KEELOQ_KEY_COUNT HITAG2_KEY_COUNT KEELOQ_KEYS app nows g in
  keys_tried (dict_state g')
  = keys_tried (dict_state g) + Z.of_nat (List.length nows) /\
  total_keys (dict_state g') = N /\
  success (dict_state g') = success (dict_state g) /\
  found_key (dict_state g') = found_key (dict_state g) /\
  status (dict_state g')
  = (if keys_tried (dict_state g) + Z.of_nat (List.length nows) <? N
     then DictAttackStatusAttacking else DictAttackStatusComplete).
Proof.
  pose proof N_range as HN. revert g.
  induction nows as [ | now nows IH]; intros g Hs Ht Hk Hlen; cbv zeta.
  - simpl. rewrite Z.add_0_r.
    destruct (Z.ltb_spec (keys_tried (dict_state g)) N); try lia.
    repeat split; assumption.
  - rewrite ticks_cons.
    destruct (tick_attacking now g Hs ltac:(lia)) as (E1 & E2 & E3 & E4 & E5).
    cbv zeta in E1, E2, E3, E4, E5.
    change (List.length (now :: nows)) with (S (List.length nows)) in *.
    rewrite Nat2Z.inj_succ in *.
    rewrite Ht in E5.
    destruct (Z.leb_spec N (keys_tried (dict_state g) + 1)) as [Hfin | Hmore].
    + assert (nows = []) as -> by (destruct nows; [reflexivity | simpl in Hlen; lia]).
      rewrite ticks_nil. cbn [List.length Z.of_nat].
      change (Z.succ 0) with 1.
      rewrite E1, E2, E3, E4, E5.
      destruct (Z.ltb_spec (keys_tried (dict_state g) + 1) N); try lia.
      repeat split; (lia || congruence).
    + specialize (IH (tick now g) E5 ltac:(congruence) ltac:(lia) ltac:(lia)).
      cbv zeta in IH. destruct IH as (I1 & I2 & I3 & I4 & I5).
      rewrite I1, I2, I3, I4, I5, E1, E3, E4.
      replace (keys_tried (dict_state g) + 1 + Z.of_nat (List.length nows))
        with (keys_tried (dict_state g) + Z.succ (Z.of_nat (List.length nows)))
        by lia.
      repeat split; reflexivity.
Qed.

End Scene.

(** The state right after OK is pressed on entering the scene. *)
Lemma attack_started K H KEYS app g0 now0 :
  view_dispatcher app = true ->
  let g := attack K H KEYS app g0 now0 [] in
  status (dict_state g) = DictAttackStatusAttacking /\
  keys_tried (dict_state g) = 0 /\
  total_keys (dict_state g) = corpus_size K H /\
  success (dict_state g) = false /\
  found_key (dict_state g) = EmptyString.
Proof.
  intros Hvd. unfold attack, predator_scene_dictionary_attack_ui_on_enter.
  rewrite Hvd. simpl. repeat split; reflexivity.
Qed.

(** The state after the timer fired [length nows] times in an attack, as
    long as keys are left. *)
Lemma attack_progress K H KEYS app g0 now0 nows :
  view_dispatcher app = true ->
  0 < corpus_size K H ->
  Z.of_nat (List.length nows) <= corpus_size K H ->
  let g := attack K H KEYS app g0 now0 nows in
  keys_tried (dict_state g) = Z.of_nat (List.length nows) /\
  total_keys (dict_state g) = corpus_size K H /\
  success (dict_state g) = false /\
  found_key (dict_state g) = EmptyString /\
  status (dict_state g)
  = (if Z.of_nat (List.length nows) <? corpus_size K H
     then DictAttackStatusAttacking else DictAttackStatusComplete).
Proof.
  intros Hvd HN Hlen.
  destruct (attack_started K H KEYS app g0 now0 Hvd) as (S1 & S2 & S3 & S4 & S5).
  cbv zeta in *. unfold attack in *. rewrite ticks_nil in *.
  match goal with
  | |- context [ticks _ _ _ _ _ ?g1] =>
    pose proof (ticks_progress K H KEYS app nows g1 S1 S3
                  ltac:(rewrite S2; lia) ltac:(rewrite S2; lia)) as P
  end.
  cbv zeta in P. rewrite S2, S4, S5 in P. exact P.
Qed.

(** The report of success the specification asks for does not hold of the
    code: with a card that accepts the very first key of a corpus of
    three, the status after the first attempt is not "Success". *)
Lemma key_recovery_never_reports_success :
  ~ success_after_true_key 2 1 (fun _ => 0) (fun _ => true) 0.
Proof.
  intros Hclaim.
  assert (true_key_at (fun _ => true) 0) as Hkey
    by (split; [reflexivity | intros j Hj; lia]).
  specialize (Hclaim Hkey app_with_dispatcher initial_globals 0 [100]
                     eq_refl eq_refl).
  vm_compute in Hclaim. discriminate Hclaim.
Qed.

(** Nor does the loop end at an accepted key: with a card that accepts
    the first key of a corpus of three, the second tick makes a second
    attempt and no key is shown. *)
Lemma attack_goes_on_after_accepted_key :
  ~ stops_at_first_accepted 2 1 (fun _ => 0) (fun _ => true) 0.
Proof.
  intros Hclaim.
  assert (true_key_at (fun _ => true) 0) as Hkey
    by (split; [reflexivity | intros j Hj; lia]).
  specialize (Hclaim Hkey app_with_dispatcher initial_globals 0 [100; 200]
                     eq_refl ltac:(vm_compute; discriminate)).
  destruct Hclaim as [Htried _]. vm_compute in Htried. discriminate Htried.
Qed.

(** C3.  In any state the scene can be in, a tick during an attack makes
    exactly one attempt, and a tick entered with any other status does
    nothing at all; a stop (OK) or a back event during an attack leaves
    the status "Complete" with the count as it was, so that the next
    tick makes no attempt. *)
Theorem tick_is_one_attempt :
  forall K H KEYS app g0 steps now,
    view_dispatcher app = true ->
    let g := scene K H KEYS app g0 steps in
    let tick := dict_attack_timer_callback K H KEYS (Some app) now in
    (status (dict_state g) = DictAttackStatusAttacking ->
     keys_tried (dict_state (tick g)) = keys_tried (dict_state g) + 1) /\
    (status (dict_state g) <> DictAttackStatusAttacking -> tick g = g) /\
    (status (dict_state g) = DictAttackStatusAttacking ->
     forall cancel,
       cancel = StepInput press_ok now \/ cancel = StepSceneEvent back_event ->
       let g' := scene_step K H KEYS app g cancel in
       status (dict_state g') = DictAttackStatusComplete /\
       keys_tried (dict_state g') = keys_tried (dict_state g) /\
       tick g' = g').
Proof.
  intros K H KEYS app g0 steps now Hvd g tick.
  assert (scene_inv (corpus_size K H) g) as Hinv
    by (apply scene_inv_run, scene_inv_enter; exact Hvd).
  pose proof (N_range K H) as HN. cbv zeta in HN.
  split; [ | split].
  - intros Hs. destruct Hinv as (Hk & Ht & _ & _ & _ & Hatt & _).
    destruct (Hatt Hs) as [_ Hlt].
    apply (tick_attacking K H KEYS app now g Hs). lia.
  - intros Hs. apply tick_not_attacking. exact Hs.
  - intros Hs cancel Hc g'.
    assert (status (dict_state g') = DictAttackStatusComplete /\
            keys_tried (dict_state g') = keys_tried (dict_state g)) as [E1 E2].
    { unfold g'. destruct Hc as [-> | ->]; simpl; rewrite Hs; simpl;
        split; reflexivity. }
    repeat split; try assumption.
    apply tick_not_attacking. rewrite E1. discriminate.
Qed.

Lemma tick_is_one_attempt_witness :
  let g := scene 2 1 (fun _ => 0) app_with_dispatcher initial_globals
                 [StepInput press_ok 0; StepTimer 100] in
  keys_tried
    (dict_state (dict_attack_timer_callback 2 1 (fun _ => 0)
                   (Some app_with_dispatcher) 200 g))
  = keys_tried (dict_state g) + 1.
Proof.
  destruct (tick_is_one_attempt 2 1 (fun _ => 0) app_with_dispatcher
              initial_globals [StepInput press_ok 0; StepTimer 100] 200)
    as (Hone & _).
  - reflexivity.
  - apply Hone. vm_compute. reflexivity.
Defined.

(** C10.  Over a corpus of at least one key, [keys_tried <= total_keys]
    holds after every step of every execution of the scene, and from the
    step at which the status leaves "Attacking" on the status is
    "Complete" and [keys_tried] no longer changes, whatever steps
    follow. *)
Theorem keys_tried_bounded_and_frozen :
  forall K H KEYS app g0,
    view_dispatcher app = true ->
    0 < corpus_size K H ->
    (forall steps,
        let st := dict_state (scene K H KEYS app g0 steps) in
        keys_tried st <= total_keys st) /\
    (forall before s after,
        let g := scene K H KEYS app g0 before in
        let g1 := scene K H KEYS app g0 (before ++ [s]) in
        let g2 := scene K H KEYS app g0 (before ++ s :: after) in
        status (dict_state g) = DictAttackStatusAttacking ->
        status (dict_state g1) <> DictAttackStatusAttacking ->
        status (dict_state g2) = DictAttackStatusComplete /\
        keys_tried (dict_state g2) = keys_tried (dict_state g1)).
Proof.
  intros K H KEYS app g0 Hvd HN. split.
  - intros steps st.
    assert (scene_inv (corpus_size K H) (scene K H KEYS app g0 steps)) as Hinv
      by (apply scene_inv_run, scene_inv_enter; exact Hvd).
    destruct Hinv as (_ & _ & _ & _ & _ & _ & Hle). apply Hle. exact HN.
  - intros before s after g g1 g2 Hs Hs1.
    assert (scene_inv (corpus_size K H) g) as Hinv
      by (apply scene_inv_run, scene_inv_enter; exact Hvd).
    assert (g1 = scene_step K H KEYS app g s) as Eg1
      by (unfold g1, g, scene, scene_run; rewrite fold_left_app; reflexivity).
    assert (g2 = scene_run K H KEYS app after g1) as Eg2
      by (unfold g2, g1, scene, scene_run; rewrite !fold_left_app;
          reflexivity).
    assert (status (dict_state g1) = DictAttackStatusComplete) as Hc.
    { rewrite Eg1 in *.
      exact (step_leaves_attacking K H KEYS app g s Hinv Hs Hs1). }
    rewrite Eg2.
    rewrite (run_after_end K H KEYS app after g1)
      by (rewrite Hc; discriminate).
    split; [exact Hc | reflexivity].
Qed.

(** The bound needs a key in the corpus: with none, the attempt of the
    first tick is counted all the same. *)
Remark empty_corpus_first_tick :
  let st := dict_state (scene 0 0 (fun _ => 0) app_with_dispatcher
                              initial_globals
                              [StepInput press_ok 0; StepTimer 100]) in
  status st = DictAttackStatusComplete /\
  keys_tried st = 1 /\ total_keys st = 0.
Proof. vm_compute. repeat split; reflexivity. Qed.

Lemma keys_tried_bounded_and_frozen_witness :
  let st := dict_state (scene 2 1 (fun _ => 0) app_with_dispatcher
                              initial_globals
                              [StepInput press_ok 0; StepTimer 100;
                               StepSceneEvent back_event; StepTimer 200]) in
  keys_tried st <= total_keys st.
Proof.
  destruct (keys_tried_bounded_and_frozen 2 1 (fun _ => 0) app_with_dispatcher
              initial_globals) as [Hbound _].
  - reflexivity.
  - vm_compute. reflexivity.
  - apply Hbound.
Defined.

End DictAttackProofs.

(** ** The header: structs and declared operations *)

Module CalypsoProofs.
Import Calypso CalypsoOps Statements.

Lemma field_value_amount_field (a : Z) :
  0 <= a < 2 ^ 24 -> field_value (amount_field a) = a.
Proof.
  intros Ha. unfold field_value, amount_field. simpl.
  change (2 ^ 24) with 16777216 in Ha.
  Z.to_euclidean_division_equations. lia.
Qed.

Lemma amount_field_bytes (a : Z) :
  List.length (amount_field a) = 3%nat /\ Forall byte (amount_field a).
Proof.
  split; [reflexivity | ].
  unfold amount_field, byte.
  repeat constructor; apply Z.mod_pos_bound; lia.
Qed.

Lemma wrap16_range (z : Z) : 0 <= wrap16 z < 2 ^ 16.
Proof. unfold wrap16. apply Z.mod_pos_bound. lia. Qed.

(** The amount a counter command carries is the argument as a
    [uint16_t]. *)
Lemma counter_command_amount (a : Z) :
  field_value (amount_field (wrap16 a)) = wrap16 a.
Proof.
  apply field_value_amount_field. pose proof (wrap16_range a).
  change (2 ^ 16) with 65536 in *. change (2 ^ 24) with 16777216. lia.
Qed.

(** C4 (as amended).  In an authenticated session each of the two counter
    operations sends exactly one command, whose 3-byte amount field holds
    the amount as the [uint16_t] the prototype declares: every amount in
    0..65,535 is transmitted as it is, and no command ever carries more
    than 65,535. *)
Theorem counter_amount_is_uint16 :
  forall exchange auth_ctx counter_number amount sent,
    authenticated auth_ctx = true ->
    (exists f,
        snd (calypso_increase_counter exchange auth_ctx counter_number amount
                                      sent)
        = sent ++ [IncreaseCounter (wrap8 counter_number) f] /\
        snd (calypso_decrease_counter exchange auth_ctx counter_number amount
                                      sent)
        = sent ++ [DecreaseCounter (wrap8 counter_number) f] /\
        List.length f = 3%nat /\ Forall byte f /\
        field_value f = amount mod 65536 /\
        field_value f <= 65535) /\
    (0 <= amount <= 65535 ->
     forall op, op = OpIncreaseCounter \/ op = OpDecreaseCounter ->
       exists cmd,
         snd (run_op exchange auth_ctx (op counter_number amount) sent)
         = sent ++ [cmd] /\
         command_amount cmd = Some amount).
Proof.
  intros exchange auth_ctx counter_number amount sent Hauth.
  pose proof (counter_command_amount amount) as Hv.
  pose proof (wrap16_range amount) as Hr.
  change (2 ^ 16) with 65536 in Hr.
  split.
  - exists (amount_field (wrap16 amount)).
    unfold calypso_increase_counter, calypso_decrease_counter.
    rewrite Hauth. simpl negb. cbv iota. cbn [snd].
    destruct (amount_field_bytes (wrap16 amount)) as [Hl Hb].
    split; [reflexivity | ]. split; [reflexivity | ].
    split; [exact Hl | ]. split; [exact Hb | ].
    rewrite Hv. split; [reflexivity | lia].
  - intros Ha op [-> | ->]; unfold run_op, calypso_increase_counter,
      calypso_decrease_counter; rewrite Hauth; simpl negb; cbv iota;
      cbn [snd]; eexists; (split; [reflexivity | ]); unfold command_amount;
      rewrite Hv; unfold wrap16; rewrite Z.mod_small;
      (reflexivity || (change (2 ^ 16) with 65536; lia)).
Qed.

Lemma counter_amount_is_uint16_witness :
  exists cmd,
    snd (run_op (fun _ => Accepted)
           {| issuer_key := []; session_key := []; diversifier := [];
              challenge := []; key_index := 1;
              security := Calypso_Security_3DES; authenticated := true |}
           (OpIncreaseCounter 1 5) [])
    = [] ++ [cmd] /\
    command_amount cmd = Some 5.
Proof.
  destruct (counter_amount_is_uint16 (fun _ => Accepted)
              {| issuer_key := []; session_key := []; diversifier := [];
                 challenge := []; key_index := 1;
                 security := Calypso_Security_3DES; authenticated := true |}
              1 5 []) as [_ Hsmall].
  - reflexivity.
  - apply Hsmall.
    + lia.
    + left. reflexivity.
Defined.

(** C4 (as stated) fails: of the 3-byte range, the amount 65,536 does not
    reach the card; the command carries 0. *)
Lemma counter_amount_above_uint16_is_lost :
  ~ transmits_full_range OpIncreaseCounter /\
  ~ transmits_full_range OpDecreaseCounter.
Proof.
  split; intros Hclaim;
    destruct (Hclaim (fun _ => Accepted)
                {| issuer_key := []; session_key := []; diversifier := [];
                   challenge := []; key_index := 1;
                   security := Calypso_Security_3DES; authenticated := true |}
                1 65536 [] eq_refl ltac:(lia)) as (cmd & Hsent & Hamount);
    vm_compute in Hsent; injection Hsent as <-;
    vm_compute in Hamount; discriminate Hamount.
Qed.

(** C5.  Each of the three operations that need an authenticated session,
    called with a context that is not authenticated, fails with
    [NotAuthenticated], returns false and exchanges nothing: the list of
    commands sent is as before, whatever the arguments and the card. *)
Theorem unauthenticated_operation_fails_without_exchange :
  forall exchange auth_ctx op sent,
    authenticated auth_ctx = false ->
    run_op exchange auth_ctx op sent = (Failed NotAuthenticated, sent) /\
    returned (fst (run_op exchange auth_ctx op sent)) = false /\
    snd (run_op exchange auth_ctx op sent) = sent.
Proof.
  intros exchange auth_ctx op sent Hauth.
  assert (run_op exchange auth_ctx op sent = (Failed NotAuthenticated, sent))
    as E.
  { destruct op; unfold run_op, calypso_update_record,
      calypso_increase_counter, calypso_decrease_counter;
      rewrite Hauth; reflexivity. }
  rewrite E. repeat split; reflexivity.
Qed.

Lemma unauthenticated_operation_fails_without_exchange_witness :
  run_op (fun _ => Accepted)
    {| issuer_key := []; session_key := []; diversifier := [];
       challenge := []; key_index := 1;
       security := Calypso_Security_3DES; authenticated := false |}
    (OpDecreaseCounter 1 5) [UpdateRecord 1 1 [0]]
  = (Failed NotAuthenticated, [UpdateRecord 1 1 [0]]).
Proof.
  apply (unauthenticated_operation_fails_without_exchange (fun _ => Accepted)
           {| issuer_key := []; session_key := []; diversifier := [];
              challenge := []; key_index := 1;
              security := Calypso_Security_3DES; authenticated := false |}
           (OpDecreaseCounter 1 5) [UpdateRecord 1 1 [0]]).
  reflexivity.
Defined.

(** The 8-byte members of the authentication context. *)
Lemma auth_context_member_8 (name : string) :
  member CalypsoAuthContext_decl name = Some (Tarray Tuint8 8) ->
  name = "diversifier"%string \/ name = "challenge"%string.
Proof.
  unfold CalypsoAuthContext_decl, member.
  repeat match goal with
         | |- context [String.eqb ?n name] =>
           destruct (String.eqb_spec n name) as [<- | _]
         end;
    intros Hm; try discriminate Hm; auto.
Qed.

(** C6 (as amended).  [CalypsoAuthContext] holds 16 bytes of issuer key,
    a 16-byte session key, the 8-byte diversifier and one 8-byte
    challenge; these four are all its byte arrays, next to the key index,
    the security level and the authenticated flag. *)
Theorem auth_context_layout :
  byte_arrays CalypsoAuthContext_decl
  = [("issuer_key", 16); ("session_key", 16); ("diversifier", 8);
     ("challenge", 8)]%string /\
  map fst CalypsoAuthContext_decl
  = ["issuer_key"; "session_key"; "diversifier"; "challenge"; "key_index";
     "security"; "authenticated"]%string /\
  access_type CalypsoAuthContext_decl (Field "key_index") = Some Tuint8 /\
  access_type CalypsoAuthContext_decl (Field "security")
  = Some (Tenum "CalypsoSecurityLevel") /\
  access_type CalypsoAuthContext_decl (Field "authenticated") = Some Tbool.
Proof. repeat split; reflexivity. Qed.

(** C6 (as stated) fails: the context has no two 8-byte challenge
    members. *)
Lemma auth_context_has_one_challenge :
  ~ holds_both_challenges CalypsoAuthContext_decl.
Proof.
  intros (reader & card_ & Hdiff & Hr & Hc & Hmr & Hmc).
  destruct (auth_context_member_8 reader Hmr) as [-> | ->];
    destruct (auth_context_member_8 card_ Hmc) as [-> | ->]; congruence.
Qed.

End CalypsoProofs.

(** ** The contracts viewer *)

Module ContractsProofs.
Import Calypso Contracts.

(** *** What the viewer shows of a contract *)

Lemma unhex2_hex2 (b : Z) : byte b -> unhex2 (hex2 b) = Some b.
Proof.
  intros [Hlo Hhi].
  assert (forallb (fun n => match unhex2 (hex2 (Z.of_nat n)) with
                            | Some v => v =? Z.of_nat n
                            | None => false
                            end) (seq 0 256) = true) as Hall
    by (vm_compute; reflexivity).
  rewrite forallb_forall in Hall.
  specialize (Hall (Z.to_nat b)).
  rewrite Z2Nat.id in Hall by exact Hlo.
  assert (In (Z.to_nat b) (seq 0 256)) as Hin by (apply in_seq; lia).
  specialize (Hall Hin).
  destruct (unhex2 (hex2 b)) as [v | ]; [ | discriminate Hall].
  apply Z.eqb_eq in Hall. congruence.
Qed.

(** The two validity lines show the three bytes of the date, day first,
    each as the two hexadecimal digits it can be read back from. *)
Lemma validity_lines_show_fields (c : CalypsoContract) (y m d y' m' d' : Z) :
  validity_start c = [y; m; d] ->
  validity_end c = [y'; m'; d'] ->
  valid_start_line c
  = Some ("Valid from: " ++ hex2 d ++ "/" ++ hex2 m ++ "/" ++ hex2 y)%string /\
  valid_end_line c
  = Some ("Valid until: " ++ hex2 d' ++ "/" ++ hex2 m' ++ "/" ++ hex2 y')%string.
Proof.
  intros Hs He.
  unfold valid_start_line, valid_end_line, date_line, read. simpl.
  rewrite Hs, He. simpl. split; reflexivity.
Qed.

(** The status shown is the [is_active] flag. *)
Lemma active_line_shows_flag (c : CalypsoContract) :
  active_line c = Some (if is_active c then "Active" else "Inactive")%string /\
  header_line c
  = Some ((if is_active c then "✓" else "✗") ++ " Contract #" ++
          dec (contract_number c))%string.
Proof.
  unfold active_line, header_line, read. simpl.
  destruct (is_active c); split; reflexivity.
Qed.

(** *** Navigation *)

(** What navigation keeps true of the selected index. *)
Lemma input_step_bounds (st : ContractsState) (event : InputEvent) :
  0 <= contract_count st < 2 ^ 32 ->
  0 <= selected_index st < 2 ^ 32 ->
  (0 < contract_count st -> selected_index st < contract_count st) ->
  let st' := input_step st event in
  contract_count st' = contract_count st /\
  contracts st' = contracts st /\
  0 <= selected_index st' < 2 ^ 32 /\
  (0 < contract_count st -> selected_index st' < contract_count st).
Proof.
  intros Hc Hs Hlt. unfold input_step, contracts_input_callback.
  destruct (InputType_eqb (ev_type event) InputTypeShort);
    [ | simpl; tauto].
  destruct (InputKey_eqb (ev_key event) InputKeyBack); [simpl; tauto | ].
  destruct (InputKey_eqb (ev_key event) InputKeyLeft); simpl andb.
  - destruct (Z.ltb_spec 0 (selected_index st)) as [Hpos | Hzero].
    + simpl. unfold wrap32. rewrite Z.mod_small by lia.
      repeat split; lia.
    + destruct (InputKey_eqb (ev_key event) InputKeyRight); simpl andb;
        [ | simpl; tauto].
      destruct (Z.ltb_spec (selected_index st)
                           (wrap32 (contract_count st - 1))) as [Hr | Hr];
        [ | simpl; tauto].
      simpl. unfold wrap32 in *.
      assert (selected_index st + 1 < 2 ^ 32) as Hroom.
      { pose proof (Z.mod_pos_bound (contract_count st - 1) (2 ^ 32)
                      ltac:(lia)). lia. }
      rewrite Z.mod_small by lia.
      repeat split; try lia. intros H0.
      rewrite Z.mod_small in Hr by lia. lia.
  - destruct (InputKey_eqb (ev_key event) InputKeyRight); simpl andb;
      [ | simpl; tauto].
    destruct (Z.ltb_spec (selected_index st)
                         (wrap32 (contract_count st - 1))) as [Hr | Hr];
      [ | simpl; tauto].
    simpl. unfold wrap32 in *.
    assert (selected_index st + 1 < 2 ^ 32) as Hroom.
    { pose proof (Z.mod_pos_bound (contract_count st - 1) (2 ^ 32)
                    ltac:(lia)). lia. }
    rewrite Z.mod_small by lia.
    repeat split; try lia. intros H0.
    rewrite Z.mod_small in Hr by lia. lia.
Qed.

Lemma inputs_bounds (events : list InputEvent) (st : ContractsState) :
  0 <= contract_count st < 2 ^ 32 ->
  0 <= selected_index st < 2 ^ 32 ->
  (0 < contract_count st -> selected_index st < contract_count st) ->
  let st' := inputs events st in
  contract_count st' = contract_count st /\
  contracts st' = contracts st /\
  0 <= selected_index st' < 2 ^ 32 /\
  (0 < contract_count st -> selected_index st' < contract_count st).
Proof.
  revert st. induction events as [ | e events IH]; intros st Hc Hs Hlt.
  - simpl. tauto.
  - destruct (input_step_bounds st e Hc Hs Hlt) as (E1 & E2 & E3 & E4).
    cbv zeta in *.
    change (inputs (e :: events) st) with (inputs events (input_step st e)).
    destruct (IH (input_step st e)) as (I1 & I2 & I3 & I4).
    + rewrite E1. exact Hc.
    + exact E3.
    + rewrite E1. exact E4.
    + rewrite I1, I2, E1, E2. rewrite E1 in I4. tauto.
Qed.

(** With no contract, each press of the right key moves the index one
    up: the bound it is compared with is [0 - 1] in a [uint32_t]. *)
Lemma right_without_contracts (n : nat) (st : ContractsState) :
  contract_count st = 0 ->
  0 <= selected_index st ->
  selected_index st + Z.of_nat n <= 2 ^ 32 - 1 ->
  let st' := inputs (repeat (press InputKeyRight) n) st in
  selected_index st' = selected_index st + Z.of_nat n /\
  contract_count st' = 0.
Proof.
  revert st. induction n as [ | n IH]; intros st Hc Hs Hn.
  - simpl. split; [lia | exact Hc].
  - change (inputs (repeat (press InputKeyRight) (S n)) st)
      with (inputs (repeat (press InputKeyRight) n)
                   (input_step st (press InputKeyRight))).
    assert (input_step st (press InputKeyRight)
            = set_selected_index (selected_index st + 1) st) as E.
    { unfold input_step, contracts_input_callback. simpl.
      rewrite Hc. change (wrap32 (0 - 1)) with (2 ^ 32 - 1).
      destruct (Z.ltb_spec (selected_index st) (2 ^ 32 - 1)); [ | lia].
      simpl. unfold wrap32. rewrite Z.mod_small by lia. reflexivity. }
    rewrite E. cbv zeta.
    destruct (IH (set_selected_index (selected_index st + 1) st))
      as [I1 I2]; simpl; try lia; try assumption.
    rewrite I1, I2. simpl. split; [lia | reflexivity].
Qed.

(** C9.  After entering the scene with any number of contracts and any
    sequence of input events: the draw callback reads the [contracts]
    array only when [contract_count > 0], and then at [selected_index],
    which is below [contract_count], hence inside the array when the
    count is at most its 4 elements; with [contract_count = 0] the right
    key moves [selected_index] up, its bound being [0 - 1] wrapped, and
    the draw callback reads nothing. *)
Theorem navigation_stays_in_bounds :
  forall cs count events,
    0 <= count < 2 ^ 32 ->
    let st := inputs events (entered_with cs count) in
    let drawn := contracts_draw_callback (Some st) in
    (forall i, array_read_of drawn = Some i ->
               0 < contract_count st /\ i = selected_index st) /\
    (0 < count ->
     contract_count st = count /\ 0 <= selected_index st < contract_count st) /\
    (0 < count <= 4 -> List.length cs = 4%nat ->
     exists ops, drawn = Drawn (Some (selected_index st)) ops) /\
    (count = 0 ->
     array_read_of drawn = None /\
     forall n, Z.of_nat n <= 2 ^ 32 - 1 ->
       let st' := inputs (repeat (press InputKeyRight) n)
                         (entered_with cs count) in
       selected_index st' = Z.of_nat n /\
       array_read_of (contracts_draw_callback (Some st')) = None).
Proof.
  intros cs count events Hcount st drawn.
  destruct (inputs_bounds events (entered_with cs count))
    as (E1 & E2 & E3 & E4); try (simpl; lia).
  cbv zeta in E1, E2, E3, E4. fold st in E1, E2, E3, E4.
  simpl in E1, E2, E3, E4.
  assert (forall s, contract_count s = 0 ->
            array_read_of (contracts_draw_callback (Some s)) = None) as Hnone.
  { intros s Hs. unfold contracts_draw_callback. rewrite Hs. reflexivity. }
  split; [ | split; [ | split]].
  - intros i Hi. unfold drawn, contracts_draw_callback in Hi.
    destruct (Z.eqb_spec (contract_count st) 0) as [Hz | Hnz].
    + discriminate Hi.
    + split; [lia | ].
      destruct (if 0 <=? selected_index st
                then nth_error (contracts st) (Z.to_nat (selected_index st))
                else None); simpl in Hi; congruence.
  - intros Hpos. split; [exact E1 | ]. specialize (E4 Hpos). lia.
  - intros Hrange Hlen. specialize (E4 ltac:(lia)).
    unfold drawn, contracts_draw_callback.
    destruct (Z.eqb_spec (contract_count st) 0) as [Hz | Hnz]; [lia | ].
    destruct (Z.leb_spec 0 (selected_index st)); [ | lia].
    destruct (nth_error (contracts st) (Z.to_nat (selected_index st)))
      as [c | ] eqn:Hnth.
    + eexists. reflexivity.
    + apply nth_error_None in Hnth. rewrite E2 in Hnth. lia.
  - intros Hzero. split; [apply Hnone; lia | ].
    intros n Hn st'.
    destruct (right_without_contracts n (entered_with cs count))
      as [R1 R2]; try (simpl; lia).
    cbv zeta in R1, R2. fold st' in R1, R2. simpl in R1.
    split; [exact R1 | apply Hnone; exact R2].
Qed.

Lemma navigation_stays_in_bounds_witness :
  let st := inputs [press InputKeyRight; press InputKeyRight;
                    press InputKeyRight; press InputKeyLeft]
                   (entered_with (repeat zero_contract 4) 2) in
  contract_count st = 2 /\ 0 <= selected_index st < contract_count st.
Proof.
  destruct (navigation_stays_in_bounds (repeat zero_contract 4) 2
              [press InputKeyRight; press InputKeyRight;
               press InputKeyRight; press InputKeyLeft])
    as (_ & Hin & _).
  - lia.
  - apply Hin. lia.
Defined.

(** The scene as it is entered is the case of no contract. *)
Lemma on_enter_has_no_contract :
  predator_scene_calypso_contracts_on_enter
  = entered_with (repeat zero_contract 4) 0.
Proof. reflexivity. Qed.

End ContractsProofs.

(** ** More on the dictionary-attack scene *)

Module DictAttackMore.
Import DictAttack Statements DictAttackView DictAttackProofs.

Section Scene.

Variables KEELOQ_KEY_COUNT HITAG2_KEY_COUNT : Z.
Variable KEELOQ_KEYS : Z -> Z.
Variable app : PredatorApp.

Let N := corpus_size KEELOQ_KEY_COUNT HITAG2_KEY_COUNT.
Let step := scene_step KEELOQ_KEY_COUNT HITAG2_KEY_COUNT KEELOQ_KEYS app.
Let run := scene_run KEELOQ_KEY_COUNT HITAG2_KEY_COUNT KEELOQ_KEYS app.
Let tick (now : Z) :=
  dict_attack_timer_callback KEELOQ_KEY_COUNT HITAG2_KEY_COUNT KEELOQ_KEYS
    (Some app) now.
Let entered (g0 : Globals) :=
  predator_scene_dictionary_attack_ui_on_enter (Some app) g0.

(** The three callbacks, by the status they find. *)
Lemma step_cases (g : Globals) (s : Step) :
  step g s = g \/
  (exists now, s = StepTimer now /\
     status (dict_state g) = DictAttackStatusAttacking /\
     step g s = tick now g) \/
  (exists now, s = StepInput press_ok now /\
     status (dict_state g) = DictAttackStatusIdle /\
     step g s
     = {| dict_state :=
            {| status := DictAttackStatusAttacking;
               frequency := frequency (dict_state g);
               keys_tried := 0; total_keys := N; attack_time_ms := 0;
               found_key := found_key (dict_state g); success := false |};
          attack_start_tick := now;
          trace := trace g ++
            [LogAppend "🔥 DICTIONARY ATTACK: 980+ keys loaded";
             LogAppend "Testing all Keeloq + Hitag2 keys"] |}) \/
  (status (dict_state g) = DictAttackStatusAttacking /\
   exists msgs,
     Forall (fun e => exists m, e = LogAppend m) msgs /\
     step g s
     = {| dict_state := set_status DictAttackStatusComplete (dict_state g);
          attack_start_tick := attack_start_tick g;
          trace := trace g ++ msgs |}).
Proof.
  destruct s as [now | [ty key] now | event]; unfold step, scene_step.
  - fold (tick now).
    destruct (status (dict_state g)) eqn:Hs;
      try (left; apply tick_not_attacking; rewrite Hs; discriminate).
    right; left. exists now. repeat split.
  - unfold dict_attack_input_callback. cbn [ev_type ev_key].
    destruct ty; cbn [InputType_eqb]; try (left; reflexivity).
    destruct key; cbn [InputKey_eqb]; try (left; reflexivity).
    destruct (status (dict_state g)) eqn:Hs; cbn [snd];
      try (left; reflexivity).
    + right; right; left. exists now. repeat split.
    + right; right; right. split; [reflexivity | ].
      exists [LogAppend "Dictionary attack stopped"]. split; [ | reflexivity].
      repeat constructor. eexists. reflexivity.
  - unfold predator_scene_dictionary_attack_ui_on_event.
    destruct (sme_type event); cbn [snd]; try (left; reflexivity).
    destruct (status (dict_state g)) eqn:Hs; try (left; reflexivity).
    right; right; right. split; [reflexivity | ].
    exists []. split; [constructor | ]. rewrite app_nil_r. reflexivity.
Qed.

Lemma start_inv_enter (g0 : Globals) :
  view_dispatcher app = true -> start_inv N (entered g0).
Proof.
  intros Hvd. unfold entered, predator_scene_dictionary_attack_ui_on_enter.
  rewrite Hvd. unfold start_inv. simpl. split; [tauto | congruence].
Qed.

Lemma start_inv_step (g : Globals) (s : Step) :
  scene_inv N g -> start_inv N g -> start_inv N (step g s).
Proof.
  intros Hinv [Hidle Hrun].
  destruct (step_cases g s)
    as [-> | [(now & _ & Hs & ->) | [(now & _ & Hs & ->) | (Hs & msgs & _ & ->)]]].
  - split; assumption.
  - destruct Hinv as (Hk & Ht & _ & _ & _ & Hatt & _).
    destruct (Hatt Hs) as [HtN Hlt]. pose proof (N_range KEELOQ_KEY_COUNT
      HITAG2_KEY_COUNT) as HN. cbv zeta in HN. fold N in HN.
    destruct (tick_attacking KEELOQ_KEY_COUNT HITAG2_KEY_COUNT KEELOQ_KEYS
                app now g Hs ltac:(fold N in HtN, Hlt; lia))
      as (_ & E2 & _ & _ & E5).
    cbv zeta in E2, E5. fold (tick now) in E2, E5.
    unfold start_inv. cbv zeta. rewrite E2, E5. split.
    + destruct (total_keys (dict_state g) <=? keys_tried (dict_state g) + 1);
        discriminate.
    + intros _. exact HtN.
  - unfold start_inv. simpl. split; [discriminate | reflexivity].
  - unfold start_inv. simpl. split; [discriminate | ].
    intros _. apply Hrun. rewrite Hs. discriminate.
Qed.

Lemma invariants_run (steps : list Step) (g : Globals) :
  scene_inv N g -> start_inv N g ->
  scene_inv N (run steps g) /\ start_inv N (run steps g).
Proof.
  revert g. induction steps as [ | s steps IH]; intros g Hi Hs.
  - split; assumption.
  - apply (IH (step g s)).
    + apply scene_inv_step. exact Hi.
    + apply start_inv_step; assumption.
Qed.

(** Once the attack has ended, a step changes nothing, output
    included. *)
Lemma step_after_end_noop (g : Globals) (s : Step) :
  status (dict_state g) <> DictAttackStatusAttacking ->
  status (dict_state g) <> DictAttackStatusIdle ->
  step g s = g.
Proof.
  intros Ha Hi.
  destruct (step_cases g s)
    as [E | [(now & _ & Hs & _) | [(now & _ & Hs & _) | (Hs & _)]]];
    congruence.
Qed.

Lemma run_after_end_noop (steps : list Step) (g : Globals) :
  status (dict_state g) <> DictAttackStatusAttacking ->
  status (dict_state g) <> DictAttackStatusIdle ->
  run steps g = g.
Proof.
  intros Ha Hi. induction steps as [ | s steps IH].
  - reflexivity.
  - change (run (s :: steps) g) with (run steps (step g s)).
    rewrite step_after_end_noop by assumption. exact IH.
Qed.

End Scene.

Lemma indices_succ (k : Z) : 0 <= k -> indices (k + 1) = indices k ++ [k].
Proof.
  intros Hk. unfold indices.
  replace (Z.to_nat (k + 1)) with (S (Z.to_nat k)) by lia.
  rewrite seq_S, map_app. simpl. rewrite Z2Nat.id by exact Hk. reflexivity.
Qed.

Lemma in_indices (n k : Z) : In k (indices n) <-> 0 <= k < n.
Proof.
  unfold indices. rewrite in_map_iff. split.
  - intros (i & <- & Hi). apply in_seq in Hi. lia.
  - intros Hk. exists (Z.to_nat k). split; [lia | ]. apply in_seq. lia.
Qed.

Lemma filter_messages (f : Effect -> bool) (msgs : list Effect) :
  drops_messages f ->
  Forall (fun e => exists m, e = LogAppend m) msgs ->
  filter f msgs = [].
Proof.
  intros Hf Hm. induction Hm as [ | e msgs (m & ->) _ IH]; simpl.
  - reflexivity.
  - rewrite Hf. exact IH.
Qed.

Section FilteredTrace.

Variables KEELOQ_KEY_COUNT HITAG2_KEY_COUNT : Z.
Variable KEELOQ_KEYS : Z -> Z.
Variable app : PredatorApp.
Hypothesis Hvd : view_dispatcher app = true.

Let N := corpus_size KEELOQ_KEY_COUNT HITAG2_KEY_COUNT.

(** A kind of effect [f], of which the attempt on key [k] produces
    [c k]. *)
Variable f : Effect -> bool.
Variable c : Z -> list Effect.
Hypothesis f_drops : drops_messages f.
Hypothesis f_attempt :
  forall now g,
    scene_inv N g -> start_inv N g ->
    status (dict_state g) = DictAttackStatusAttacking ->
    filter f (trace (dict_attack_timer_callback KEELOQ_KEY_COUNT
                       HITAG2_KEY_COUNT KEELOQ_KEYS (Some app) now g))
    = filter f (trace g) ++ c (keys_tried (dict_state g)).

(** In every execution the effects of that kind are those of the
    attempts counted, in order. *)
Lemma filtered_trace (g0 : Globals) (steps : list Step) :
  let g := scene KEELOQ_KEY_COUNT HITAG2_KEY_COUNT KEELOQ_KEYS app g0 steps in
  filter f (trace g)
  = filter f (trace g0) ++ flat_map c (indices (keys_tried (dict_state g))).
Proof.
  cbv zeta. unfold scene.
  assert (forall g,
             scene_inv N g -> start_inv N g ->
             filter f (trace g)
             = filter f (trace g0) ++
               flat_map c (indices (keys_tried (dict_state g))) ->
             let g' := scene_run KEELOQ_KEY_COUNT HITAG2_KEY_COUNT KEELOQ_KEYS
                         app steps g in
             filter f (trace g')
             = filter f (trace g0) ++
               flat_map c (indices (keys_tried (dict_state g')))) as Hrun.
  { induction steps as [ | s steps IH]; intros g Hi Hs Hf; [exact Hf | ].
    cbv zeta.
    change (scene_run KEELOQ_KEY_COUNT HITAG2_KEY_COUNT KEELOQ_KEYS app
              (s :: steps) g)
      with (scene_run KEELOQ_KEY_COUNT HITAG2_KEY_COUNT KEELOQ_KEYS app steps
              (scene_step KEELOQ_KEY_COUNT HITAG2_KEY_COUNT KEELOQ_KEYS app
                 g s)).
    apply IH.
    - apply scene_inv_step. exact Hi.
    - apply start_inv_step; assumption.
    - destruct (step_cases KEELOQ_KEY_COUNT HITAG2_KEY_COUNT KEELOQ_KEYS app
                  g s)
        as [-> | [(now & _ & Hst & ->) | [(now & _ & Hst & ->)
                                          | (Hst & msgs & Hm & ->)]]].
      + exact Hf.
      + rewrite (f_attempt now g Hi Hs Hst), Hf.
        destruct Hi as (Hk & Ht & _ & _ & _ & Hatt & _).
        destruct (Hatt Hst) as [HtN Hlt].
        pose proof (N_range KEELOQ_KEY_COUNT HITAG2_KEY_COUNT) as HN.
        cbv zeta in HN. fold N in HN.
        destruct (tick_attacking KEELOQ_KEY_COUNT HITAG2_KEY_COUNT KEELOQ_KEYS
                    app now g Hst ltac:(lia)) as (E1 & _).
        cbv zeta in E1. rewrite E1, indices_succ by exact Hk.
        rewrite flat_map_app. simpl. rewrite app_nil_r, app_assoc.
        reflexivity.
      + destruct Hs as [Hidle _]. destruct (Hidle Hst) as [Hk0 _].
        cbn [trace dict_state keys_tried]. rewrite filter_app.
        pose proof (f_drops : forall msg, f (LogAppend msg) = false) as Hd.
        cbn [filter]. rewrite !Hd.
        rewrite app_nil_r, Hf, Hk0. reflexivity.
      + cbn [trace dict_state keys_tried set_status]. rewrite filter_app.
        rewrite (filter_messages f msgs f_drops Hm).
        rewrite app_nil_r. exact Hf. }
  apply Hrun.
  - apply scene_inv_enter. exact Hvd.
  - exact (start_inv_enter KEELOQ_KEY_COUNT HITAG2_KEY_COUNT KEELOQ_KEYS app
             g0 Hvd).
  - unfold predator_scene_dictionary_attack_ui_on_enter. rewrite Hvd.
    simpl. rewrite app_nil_r. reflexivity.
Qed.

End FilteredTrace.

(** In an execution the total is 0 until the start and the size of the
    corpus from then on. *)
Lemma start_inv_total K H KEYS app g0 steps :
  view_dispatcher app = true ->
  let g := scene K H KEYS app g0 steps in
  total_keys (dict_state g) = 0 \/ total_keys (dict_state g) = corpus_size K H.
Proof.
  intros Hvd g.
  destruct (invariants_run K H KEYS app steps
              (predator_scene_dictionary_attack_ui_on_enter (Some app) g0))
    as [_ [Hidle Hrun]].
  - apply scene_inv_enter. exact Hvd.
  - exact (start_inv_enter K H KEYS app g0 Hvd).
  - fold (scene K H KEYS app g0 steps) in Hidle, Hrun. fold g in Hidle, Hrun.
    destruct (status (dict_state g)) eqn:Hs.
    + left. apply Hidle. reflexivity.
    + right. apply Hrun. discriminate.
    + right. apply Hrun. discriminate.
    + right. apply Hrun. discriminate.
Qed.

Lemma flat_map_single {A B : Type} (h : A -> B) (l : list A) :
  flat_map (fun a => [h a]) l = map h l.
Proof. induction l as [ | a l IH]; simpl; congruence. Qed.

Lemma filter_try_next_key K H KEYS (f : Effect -> bool) (k : Z) :
  (forall e, is_key_log e = true -> f e = false) ->
  filter f (try_next_key K H KEYS k) = [].
Proof.
  intros Hf. unfold try_next_key.
  destruct (k <? K); [simpl; rewrite Hf; reflexivity | ].
  destruct (k <? corpus_size K H); [simpl; rewrite Hf; reflexivity | ].
  reflexivity.
Qed.

(** X2.  In every execution of the scene over a corpus of at least one
    key, stopped or not, the keys logged as tried are exactly the first
    [keys_tried] keys of the corpus, each once and in order: the Keeloq
    keys by index, then the Hitag2 keys by their index in their table. *)
Theorem keys_logged_in_corpus_order :
  forall K H KEYS app g0 steps,
    view_dispatcher app = true ->
    0 <= K -> 0 < K + H < 2 ^ 32 ->
    let g := scene K H KEYS app g0 steps in
    filter is_key_log (trace g)
    = filter is_key_log (trace g0) ++
      map (key_log K KEYS) (indices (keys_tried (dict_state g))).
Proof.
  intros K H KEYS app g0 steps Hvd HK HKH g.
  assert (corpus_size K H = K + H) as HN
    by (unfold corpus_size; apply wrap32_small; lia).
  rewrite <- flat_map_single. unfold g.
  apply (filtered_trace K H KEYS app Hvd is_key_log); [intros m; reflexivity | ].
  intros now g1 Hi Hs Hst.
  destruct Hi as (Hk & Ht & _ & _ & _ & Hatt & _).
  destruct (Hatt Hst) as [HtN Hlt]. rewrite HN in HtN, Hlt.
  unfold dict_attack_timer_callback. rewrite Hst. cbv zeta. cbn [trace].
  rewrite !filter_app. f_equal.
  assert (try_next_key K H KEYS (keys_tried (dict_state g1))
          = [key_log K KEYS (keys_tried (dict_state g1))]) as ->.
  { unfold try_next_key, key_log. rewrite HN.
    destruct (Z.ltb_spec (keys_tried (dict_state g1)) K); [reflexivity | ].
    destruct (Z.ltb_spec (keys_tried (dict_state g1)) (K + H)); [ | lia].
    rewrite wrap32_small by lia. reflexivity. }
  assert (filter is_key_log [key_log K KEYS (keys_tried (dict_state g1))]
          = [key_log K KEYS (keys_tried (dict_state g1))]) as ->
    by (unfold key_log; destruct (keys_tried (dict_state g1) <? K);
        reflexivity).
  repeat match goal with
         | |- context [if ?b then _ else _] => destruct b
         end; reflexivity.
Qed.

Lemma keys_logged_in_corpus_order_witness :
  filter is_key_log
    (trace (scene 2 1 (fun i => 1000 + i) app_with_dispatcher initial_globals
                  [StepInput press_ok 0; StepTimer 1; StepTimer 2;
                   StepTimer 3; StepTimer 4]))
  = [LogTryKeeloq 0 1000; LogTryKeeloq 1 1001; LogTryHitag2 0].
Proof.
  rewrite (keys_logged_in_corpus_order 2 1 (fun i => 1000 + i)
             app_with_dispatcher initial_globals).
  - reflexivity.
  - reflexivity.
  - lia.
  - lia.
Defined.

Lemma progress_logs_length (N : Z) (m : nat) :
  Z.of_nat
    (List.length
       (flat_map (fun k => if (k + 1) mod 50 =? 0
                           then [LogProgress (k + 1) N ((k + 1) * 100 / N)]
                           else [])
                 (indices (Z.of_nat m))))
  = Z.of_nat m / 50.
Proof.
  induction m as [ | m IH].
  - reflexivity.
  - rewrite Nat2Z.inj_succ, <- Z.add_1_r, indices_succ by lia.
    rewrite flat_map_app, length_app, Nat2Z.inj_add, IH. simpl.
    destruct (Z.eqb_spec ((Z.of_nat m + 1) mod 50) 0) as [E | E]; simpl;
      Z.to_euclidean_division_equations; lia.
Qed.

(** X3.  In every execution over a corpus of N keys, with 100 * N below
    2^32, a progress message is logged at exactly the attempts whose
    number is a multiple of 50: [keys_tried / 50] messages so far, each
    with the number of the attempt, N and the percentage
    floor(100 * attempt / N), which is at most 100. *)
Theorem progress_logged_every_50_keys :
  forall K H KEYS app g0 steps,
    view_dispatcher app = true ->
    0 < corpus_size K H -> 100 * corpus_size K H < 2 ^ 32 ->
    let N := corpus_size K H in
    let g := scene K H KEYS app g0 steps in
    exists logs,
      filter is_progress_log (trace g)
      = filter is_progress_log (trace g0) ++ logs /\
      Z.of_nat (List.length logs) = keys_tried (dict_state g) / 50 /\
      forall e, In e logs <->
        exists t, 0 < t <= keys_tried (dict_state g) /\ t mod 50 = 0 /\
                  e = LogProgress t N (t * 100 / N) /\
                  0 <= t * 100 / N <= 100.
Proof.
  intros K H KEYS app g0 steps Hvd HN Hhun N g.
  set (c := fun k => if (k + 1) mod 50 =? 0
                     then [LogProgress (k + 1) N ((k + 1) * 100 / N)]
                     else []).
  assert (scene_inv N g) as Hinv
    by (apply scene_inv_run, scene_inv_enter; exact Hvd).
  destruct Hinv as (Hk & _ & _ & _ & _ & Hatt & Hle).
  assert (filter is_progress_log (trace g)
          = filter is_progress_log (trace g0) ++
            flat_map c (indices (keys_tried (dict_state g)))) as Htrace.
  { unfold g.
    apply (filtered_trace K H KEYS app Hvd is_progress_log);
      [intros m; reflexivity | ].
    intros now g1 Hi [_ Hs] Hst.
    destruct Hi as (Hk1 & _ & _ & _ & _ & Hatt1 & _).
    destruct (Hatt1 Hst) as [HtN Hlt]. fold N in HtN, Hlt.
    unfold dict_attack_timer_callback. rewrite Hst. cbv zeta. cbn [trace].
    rewrite !filter_app. f_equal.
    rewrite filter_try_next_key by (intros [ | | | | ]; (discriminate || reflexivity)).
    rewrite HtN. rewrite (wrap32_small (keys_tried (dict_state g1) + 1)) by lia.
    rewrite (wrap32_small ((keys_tried (dict_state g1) + 1) * 100)) by lia.
    unfold c. destruct (Z.ltb_spec 0 N); [ | lia]. rewrite andb_true_r.
    destruct ((keys_tried (dict_state g1) + 1) mod 50 =? 0),
      (N <=? keys_tried (dict_state g1) + 1), (view_dispatcher app);
      reflexivity. }
  exists (flat_map c (indices (keys_tried (dict_state g)))).
  split; [exact Htrace | ]. split.
  - rewrite <- (Z2Nat.id (keys_tried (dict_state g))) by exact Hk.
    apply progress_logs_length.
  - specialize (Hle HN).
    assert (total_keys (dict_state g) <= N) as HtN.
    { destruct (start_inv_total K H KEYS app g0 steps Hvd) as [E | E];
        fold g in E; rewrite E; fold N; lia. }
    intros e. rewrite in_flat_map. split.
    + intros (k & Hin & He). apply in_indices in Hin. unfold c in He.
      destruct (Z.eqb_spec ((k + 1) mod 50) 0) as [E | E]; [ | destruct He].
      destruct He as [<- | []]. exists (k + 1).
      repeat split; try lia; try assumption.
      * apply Z.div_pos; lia.
      * apply Z.div_le_upper_bound; lia.
    + intros (t & Ht & Hmod & -> & _). exists (t - 1). split.
      * apply in_indices. lia.
      * unfold c. replace (t - 1 + 1) with t by lia.
        rewrite Hmod. simpl. left. reflexivity.
Qed.

Lemma progress_logged_every_50_keys_witness :
  exists logs,
    filter is_progress_log
      (trace (scene 40 20 (fun _ => 0) app_with_dispatcher initial_globals
                    (StepInput press_ok 0 :: map StepTimer (repeat 1 55))))
    = filter is_progress_log (trace initial_globals) ++ logs /\
    In (LogProgress 50 60 83) logs.
Proof.
  destruct (progress_logged_every_50_keys 40 20 (fun _ => 0)
              app_with_dispatcher initial_globals
              (StepInput press_ok 0 :: map StepTimer (repeat 1 55)))
    as (logs & Htrace & _ & Hin).
  - reflexivity.
  - vm_compute. reflexivity.
  - vm_compute. reflexivity.
  - exists logs. split; [exact Htrace | ].
    apply Hin. exists 50. vm_compute.
    repeat split; (reflexivity || discriminate).
Defined.

(** X4.  In every execution of the scene (with a view dispatcher) one
    custom event is sent to the view dispatcher for each attempt made and
    none otherwise: the number of events sent since entering the scene is
    [keys_tried]. *)
Theorem one_custom_event_per_attempt :
  forall K H KEYS app g0 steps,
    view_dispatcher app = true ->
    let g := scene K H KEYS app g0 steps in
    filter is_custom_event (trace g)
    = filter is_custom_event (trace g0) ++
      repeat (SendCustomEvent 0) (Z.to_nat (keys_tried (dict_state g))).
Proof.
  intros K H KEYS app g0 steps Hvd g.
  assert (forall n, map (fun _ : Z => SendCustomEvent 0) (indices n)
                    = repeat (SendCustomEvent 0) (Z.to_nat n)) as Hrep.
  { intros n. unfold indices. rewrite map_map.
    generalize 0%nat. induction (Z.to_nat n) as [ | m IH]; intros start;
      simpl; [reflexivity | ]. rewrite IH. reflexivity. }
  rewrite <- Hrep, <- flat_map_single. unfold g.
  apply (filtered_trace K H KEYS app Hvd is_custom_event);
    [intros m; reflexivity | ].
  intros now g1 _ _ Hst.
  unfold dict_attack_timer_callback. rewrite Hst. cbv zeta. cbn [trace].
  rewrite !filter_app. f_equal.
  rewrite filter_try_next_key
    by (intros [ | | | | ]; (discriminate || reflexivity)).
  rewrite Hvd.
  repeat match goal with
         | |- context [if ?b then _ else _] => destruct b
         end; reflexivity.
Qed.

Lemma one_custom_event_per_attempt_witness :
  filter is_custom_event
    (trace (scene 2 1 (fun _ => 0) app_with_dispatcher initial_globals
                  [StepInput press_ok 0; StepTimer 1;
                   StepSceneEvent back_event; StepTimer 2]))
  = [SendCustomEvent 0].
Proof.
  rewrite (one_custom_event_per_attempt 2 1 (fun _ => 0) app_with_dispatcher
             initial_globals).
  - reflexivity.
  - reflexivity.
Defined.

(** X5.  In no execution of the scene, whatever the inputs, does the
    status become "Success", the success flag get set or a found key get
    stored: the view never shows "SUCCESS!" nor a "Key:" line. *)
Theorem scene_never_shows_a_key :
  forall K H KEYS app g0 steps,
    view_dispatcher app = true ->
    let st := dict_state (scene K H KEYS app g0 steps) in
    status st <> DictAttackStatusSuccess /\
    success st = false /\ found_key st = EmptyString /\
    (forall x y, ~ In (DrawStr x y "SUCCESS!") (dict_attack_draw_callback st)) /\
    (forall x y, ~ In (DrawStr x y "Key:") (dict_attack_draw_callback st)).
Proof.
  intros K H KEYS app g0 steps Hvd st.
  assert (scene_inv (corpus_size K H) (scene K H KEYS app g0 steps)) as Hinv
    by (apply scene_inv_run, scene_inv_enter; exact Hvd).
  destruct Hinv as (_ & _ & Hns & Hsu & Hfk & _). fold st in Hns, Hsu, Hfk.
  split; [exact Hns | ]. split; [exact Hsu | ]. split; [exact Hfk | ].
  assert (key_line st = None) as Hkl by (unfold key_line; rewrite Hsu; reflexivity).
  unfold dict_attack_draw_callback. rewrite Hkl.
  split; intros x y Hin; repeat (apply in_app_or in Hin; destruct Hin as [Hin | Hin]);
    simpl in Hin;
    try (destruct (progress_bar st); simpl in Hin);
    try (destruct (status st); try congruence; simpl in Hin);
    repeat (destruct Hin as [Hin | Hin]; try discriminate Hin);
    try contradiction.
Qed.

Lemma scene_never_shows_a_key_witness :
  let st := dict_state (scene 1 1 (fun _ => 0) app_with_dispatcher
                              initial_globals
                              [StepInput press_ok 0; StepTimer 1; StepTimer 2;
                               StepInput press_ok 3]) in
  status st <> DictAttackStatusSuccess /\ success st = false.
Proof.
  destruct (scene_never_shows_a_key 1 1 (fun _ => 0) app_with_dispatcher
              initial_globals
              [StepInput press_ok 0; StepTimer 1; StepTimer 2;
               StepInput press_ok 3]) as (Hs & Hf & _).
  - reflexivity.
  - split; [exact Hs | exact Hf].
Defined.

(** X6.  Once an attack has ended (stopped, left with back, or out of
    keys), the rest of the execution changes nothing: counters, time and
    status stay as they are, nothing is logged and no event is sent; in
    particular OK does not start a second attack until the scene is left
    and entered again. *)
Theorem ended_attack_is_final :
  forall K H KEYS app g0 before after,
    view_dispatcher app = true ->
    status (dict_state (scene K H KEYS app g0 before))
    = DictAttackStatusComplete ->
    scene K H KEYS app g0 (before ++ after) = scene K H KEYS app g0 before.
Proof.
  intros K H KEYS app g0 before after Hvd Hs.
  unfold scene, scene_run in *. rewrite fold_left_app.
  apply (run_after_end_noop K H KEYS app after); rewrite Hs; discriminate.
Qed.

Lemma ended_attack_is_final_witness :
  scene 2 1 (fun _ => 0) app_with_dispatcher initial_globals
        ([StepInput press_ok 0; StepTimer 1; StepInput press_ok 2] ++
         [StepInput press_ok 3; StepTimer 4])
  = scene 2 1 (fun _ => 0) app_with_dispatcher initial_globals
          [StepInput press_ok 0; StepTimer 1; StepInput press_ok 2].
Proof.
  apply ended_attack_is_final.
  - reflexivity.
  - vm_compute. reflexivity.
Defined.

(** X7.  The controls shown at the bottom of the view say what a short
    press on OK does: it changes the state exactly when the line offers
    OK; under "OK=Start" it starts an attack from zero over the whole
    corpus, under "OK=Stop" it ends the attack with the count as it is,
    and under "Back=Exit" alone it does nothing.  The press is always
    reported as handled. *)
Theorem controls_hint_matches_ok :
  forall K H app now g,
    let hint := snd (controls_hint (status (dict_state g))) in
    let r := dict_attack_input_callback K H press_ok (Some app) now g in
    let st' := dict_state (snd r) in
    fst r = true /\
    (snd r = g <-> hint = "Back=Exit"%string) /\
    (hint = "OK=Start  Back=Exit"%string ->
     status st' = DictAttackStatusAttacking /\ keys_tried st' = 0 /\
     total_keys st' = corpus_size K H /\ attack_start_tick (snd r) = now) /\
    (hint = "OK=Stop  Back=Exit"%string ->
     status st' = DictAttackStatusComplete /\
     keys_tried st' = keys_tried (dict_state g) /\
     total_keys st' = total_keys (dict_state g)).
Proof.
  intros K H app now g hint r st'.
  unfold hint, st', r, dict_attack_input_callback, controls_hint. simpl.
  destruct g as [[s fr kt tk tm fk su] ast tr]. simpl.
  destruct s; simpl; repeat split; intros; try discriminate; try reflexivity;
    try congruence.
Qed.

Lemma controls_hint_matches_ok_witness :
  status (dict_state
            (snd (dict_attack_input_callback 2 1 press_ok
                    (Some app_with_dispatcher) 7 initial_globals)))
  = DictAttackStatusAttacking.
Proof.
  destruct (controls_hint_matches_ok 2 1 app_with_dispatcher 7 initial_globals)
    as (_ & _ & Hstart & _).
  apply Hstart. reflexivity.
Defined.

(** X8.  In every execution over a corpus of N >= 1 keys, with 122 * N
    below 2^32: no progress bar is drawn before the start; from the start
    on the bar is floor(122 * keys_tried / N) wide, never over its 122
    columns, and it is full exactly when every key has been tried. *)
Theorem progress_bar_tracks_attempts :
  forall K H KEYS app g0 steps,
    view_dispatcher app = true ->
    0 < corpus_size K H -> 122 * corpus_size K H < 2 ^ 32 ->
    let N := corpus_size K H in
    let st := dict_state (scene K H KEYS app g0 steps) in
    (status st = DictAttackStatusIdle -> progress_bar st = None) /\
    (status st <> DictAttackStatusIdle ->
     progress_bar st = Some (keys_tried st * 122 / N) /\
     0 <= keys_tried st * 122 / N <= 122 /\
     (keys_tried st * 122 / N = 122 <-> keys_tried st = N)).
Proof.
  intros K H KEYS app g0 steps Hvd HN Hbar N st.
  destruct (invariants_run K H KEYS app steps
              (predator_scene_dictionary_attack_ui_on_enter (Some app) g0))
    as [Hinv [Hidle Hrun]].
  - apply scene_inv_enter. exact Hvd.
  - exact (start_inv_enter K H KEYS app g0 Hvd).
  - fold (scene K H KEYS app g0 steps) in Hinv, Hidle, Hrun.
    destruct Hinv as (Hk & _ & _ & _ & _ & _ & Hle).
    fold st in Hk, Hle, Hidle, Hrun. specialize (Hle HN). fold N in Hrun, HN, Hbar.
    split.
    + intros Hs. destruct (Hidle Hs) as [_ Ht].
      unfold progress_bar. rewrite Ht. reflexivity.
    + intros Hs. specialize (Hrun Hs). rewrite Hrun in Hle.
      assert (0 <= keys_tried st * 122 / N <= 122) as Hq.
      { split; [apply Z.div_pos; lia | apply Z.div_le_upper_bound; lia]. }
      split; [ | split; [exact Hq | ]].
      * unfold progress_bar. rewrite Hrun.
        destruct (Z.ltb_spec 0 N); [ | lia].
        rewrite (wrap32_small (keys_tried st * 122)) by lia.
        unfold wrap8. rewrite Z.mod_small by (change (2 ^ 8) with 256; lia).
        destruct (Z.ltb_spec 122 (keys_tried st * 122 / N)); [lia | reflexivity].
      * split.
        -- intros E.
           pose proof (Z.mul_div_le (keys_tried st * 122) N HN) as Hm.
           rewrite E in Hm. lia.
        -- intros E. rewrite E, (Z.mul_comm N 122), Z.div_mul by lia.
           reflexivity.
Qed.

Lemma progress_bar_tracks_attempts_witness :
  progress_bar
    (dict_state (scene 2 1 (fun _ => 0) app_with_dispatcher initial_globals
                       [StepInput press_ok 0; StepTimer 1; StepTimer 2]))
  = Some 81.
Proof.
  destruct (progress_bar_tracks_attempts 2 1 (fun _ => 0) app_with_dispatcher
              initial_globals [StepInput press_ok 0; StepTimer 1; StepTimer 2])
    as [_ Hbar].
  - reflexivity.
  - vm_compute. reflexivity.
  - vm_compute. reflexivity.
  - destruct Hbar as (Hw & _).
    + vm_compute. discriminate.
    + exact Hw.
Defined.

Lemma ticks_keep_start K H KEYS app (nows : list Z) (g : Globals) :
  attack_start_tick (ticks K H KEYS app nows g) = attack_start_tick g.
Proof.
  revert g. induction nows as [ | now nows IH]; intros g.
  - reflexivity.
  - rewrite ticks_cons, IH. unfold dict_attack_timer_callback.
    destruct (status (dict_state g)); reflexivity.
Qed.

Lemma ticks_snoc K H KEYS app (nows : list Z) (now : Z) (g : Globals) :
  ticks K H KEYS app (nows ++ [now]) g
  = dict_attack_timer_callback K H KEYS (Some app) now
      (ticks K H KEYS app nows g).
Proof. unfold ticks, scene_run. rewrite map_app, fold_left_app. reflexivity. Qed.

(** X1.  The time shown for an attack is the time since OK was pressed,
    also when the 32-bit tick counter of the system wraps around in
    between: a tick that comes [e] milliseconds after the start, counted
    modulo 2^32, sets [attack_time_ms] to [e]. *)
Theorem elapsed_time_survives_tick_wrap :
  forall K H KEYS app g0 now0 nows e,
    view_dispatcher app = true ->
    0 < corpus_size K H ->
    Z.of_nat (List.length nows) < corpus_size K H ->
    0 <= e < 2 ^ 32 ->
    attack_time_ms
      (dict_state (attack K H KEYS app g0 now0 (nows ++ [wrap32 (now0 + e)])))
    = e.
Proof.
  intros K H KEYS app g0 now0 nows e Hvd HN Hlen He.
  destruct (attack_progress K H KEYS app g0 now0 nows Hvd HN ltac:(lia))
    as (_ & _ & _ & _ & P5).
  destruct (Z.ltb_spec (Z.of_nat (List.length nows)) (corpus_size K H));
    [ | lia].
  assert (attack_start_tick (attack K H KEYS app g0 now0 nows) = now0) as Hst.
  { unfold attack. rewrite ticks_keep_start.
    unfold predator_scene_dictionary_attack_ui_on_enter. rewrite Hvd.
    reflexivity. }
  unfold attack in *. rewrite ticks_snoc.
  unfold dict_attack_timer_callback at 1. rewrite P5. cbv zeta.
  cbn [dict_state attack_time_ms]. rewrite Hst.
  unfold wrap32. rewrite Zminus_mod_idemp_l.
  replace (now0 + e - now0) with e by lia. apply Z.mod_small. exact He.
Qed.

Lemma elapsed_time_survives_tick_wrap_witness :
  attack_time_ms
    (dict_state (attack 2 1 (fun _ => 0) app_with_dispatcher initial_globals
                        4294967000 ([4294967100] ++ [wrap32 (4294967000 + 500)])))
  = 500.
Proof.
  apply elapsed_time_survives_tick_wrap.
  - reflexivity.
  - vm_compute. reflexivity.
  - vm_compute. reflexivity.
  - lia.
Defined.

End DictAttackMore.

(** ** More on the contracts viewer *)

Module ContractsMore.
Import Calypso Contracts ContractsView ContractsProofs.

Lemma set_selected_index_same (st : ContractsState) :
  set_selected_index (selected_index st) st = st.
Proof. destruct st; reflexivity. Qed.

Lemma step_right (st : ContractsState) :
  0 <= selected_index st ->
  selected_index st < wrap32 (contract_count st - 1) ->
  input_step st (press InputKeyRight)
  = set_selected_index (selected_index st + 1) st.
Proof.
  intros Hs Hlt. unfold input_step, contracts_input_callback. simpl.
  destruct (Z.ltb_spec (selected_index st) (wrap32 (contract_count st - 1)));
    [ | lia].
  simpl. rewrite DictAttackProofs.wrap32_small; [reflexivity | ].
  pose proof (DictAttackProofs.wrap32_range (contract_count st - 1)). lia.
Qed.

Lemma step_right_stay (st : ContractsState) :
  wrap32 (contract_count st - 1) <= selected_index st ->
  input_step st (press InputKeyRight) = st.
Proof.
  intros Hge. unfold input_step, contracts_input_callback. simpl.
  destruct (Z.ltb_spec (selected_index st) (wrap32 (contract_count st - 1)));
    [lia | reflexivity].
Qed.

Lemma step_left (st : ContractsState) :
  0 < selected_index st < 2 ^ 32 ->
  input_step st (press InputKeyLeft)
  = set_selected_index (selected_index st - 1) st.
Proof.
  intros Hs. unfold input_step, contracts_input_callback. simpl.
  destruct (Z.ltb_spec 0 (selected_index st)); [ | lia].
  simpl. rewrite DictAttackProofs.wrap32_small by lia. reflexivity.
Qed.

Lemma step_left_stay (st : ContractsState) :
  selected_index st <= 0 -> input_step st (press InputKeyLeft) = st.
Proof.
  intros Hs. unfold input_step, contracts_input_callback. simpl.
  destruct (Z.ltb_spec 0 (selected_index st)); [lia | reflexivity].
Qed.

Lemma wrap32_pred (count : Z) :
  0 <= count < 2 ^ 32 ->
  wrap32 (count - 1) = if count =? 0 then 2 ^ 32 - 1 else count - 1.
Proof.
  intros Hc. destruct (Z.eqb_spec count 0) as [-> | Hnz].
  - reflexivity.
  - apply DictAttackProofs.wrap32_small. lia.
Qed.

(** X9.  In the contracts viewer left and right undo each other: from
    any state reached by navigation, a left press that moves followed by
    a right press, or a right press that moves followed by a left press,
    gives back the state as it was. *)
Theorem left_and_right_undo_each_other :
  forall cs count events,
    0 <= count < 2 ^ 32 ->
    let st := inputs events (entered_with cs count) in
    (0 < selected_index st ->
     input_step (input_step st (press InputKeyLeft)) (press InputKeyRight)
     = st) /\
    (input_step st (press InputKeyRight) <> st ->
     input_step (input_step st (press InputKeyRight)) (press InputKeyLeft)
     = st).
Proof.
  intros cs count events Hcount st.
  destruct (inputs_bounds events (entered_with cs count))
    as (E1 & _ & E3 & E4); try (simpl; lia).
  cbv zeta in E1, E3, E4. fold st in E1, E3, E4. simpl in E1, E4.
  pose proof (wrap32_pred count Hcount) as Hw. rewrite <- E1 in Hw at 1.
  split.
  - intros Hpos. rewrite step_left by lia.
    rewrite step_right; cbn [selected_index contract_count set_selected_index].
    + replace (selected_index st - 1 + 1) with (selected_index st) by lia.
      destruct st; reflexivity.
    + lia.
    + rewrite Hw. destruct (Z.eqb_spec count 0); [lia | ].
      specialize (E4 ltac:(lia)). lia.
  - intros Hmoved.
    destruct (Z.lt_ge_cases (selected_index st)
                            (wrap32 (contract_count st - 1))) as [Hlt | Hge].
    + rewrite step_right by lia.
      pose proof (DictAttackProofs.wrap32_range (contract_count st - 1)).
      rewrite step_left;
        cbn [selected_index contract_count set_selected_index]; [ | lia].
      replace (selected_index st + 1 - 1) with (selected_index st) by lia.
      destruct st; reflexivity.
    + exfalso. apply Hmoved. apply step_right_stay. exact Hge.
Qed.

Lemma left_and_right_undo_each_other_witness :
  let st := inputs [press InputKeyRight; press InputKeyRight]
                   (entered_with (repeat zero_contract 4) 3) in
  input_step (input_step st (press InputKeyLeft)) (press InputKeyRight) = st.
Proof.
  destruct (left_and_right_undo_each_other (repeat zero_contract 4) 3
              [press InputKeyRight; press InputKeyRight]) as [Hlr _].
  - lia.
  - apply Hlr. vm_compute. reflexivity.
Defined.

Lemma inputs_app (l1 l2 : list InputEvent) (st : ContractsState) :
  inputs (l1 ++ l2) st = inputs l2 (inputs l1 st).
Proof. unfold inputs. apply fold_left_app. Qed.

Lemma rights_from (n : nat) (st : ContractsState) :
  0 < contract_count st < 2 ^ 32 ->
  0 <= selected_index st < contract_count st ->
  let st' := inputs (repeat (press InputKeyRight) n) st in
  selected_index st'
  = Z.min (selected_index st + Z.of_nat n) (contract_count st - 1) /\
  contract_count st' = contract_count st.
Proof.
  revert st. induction n as [ | n IH]; intros st Hc Hs; cbv zeta.
  - simpl. split; [lia | reflexivity].
  - change (inputs (repeat (press InputKeyRight) (S n)) st)
      with (inputs (repeat (press InputKeyRight) n)
                   (input_step st (press InputKeyRight))).
    pose proof (wrap32_pred (contract_count st) ltac:(lia)) as Hw.
    destruct (Z.eqb_spec (contract_count st) 0); [lia | ].
    destruct (Z.lt_ge_cases (selected_index st) (contract_count st - 1))
      as [Hlt | Hge].
    + rewrite step_right by lia.
      destruct (IH (set_selected_index (selected_index st + 1) st))
        as [I1 I2]; cbn [selected_index contract_count set_selected_index];
        try lia.
      cbn [selected_index contract_count set_selected_index] in I1, I2.
      rewrite I1, I2. split; [lia | reflexivity].
    + rewrite step_right_stay by lia.
      destruct (IH st Hc Hs) as [I1 I2]. rewrite I1, I2.
      split; [lia | reflexivity].
Qed.

Lemma lefts_from (n : nat) (st : ContractsState) :
  0 <= selected_index st < 2 ^ 32 ->
  selected_index (inputs (repeat (press InputKeyLeft) n) st)
  = Z.max 0 (selected_index st - Z.of_nat n).
Proof.
  revert st. induction n as [ | n IH]; intros st Hs.
  - simpl. lia.
  - change (inputs (repeat (press InputKeyLeft) (S n)) st)
      with (inputs (repeat (press InputKeyLeft) n)
                   (input_step st (press InputKeyLeft))).
    destruct (Z.eq_dec (selected_index st) 0) as [Hz | Hnz].
    + rewrite step_left_stay by lia. rewrite IH by exact Hs. lia.
    + rewrite step_left by lia.
      rewrite IH; cbn [selected_index set_selected_index]; lia.
Qed.

(** X10.  With at least one contract, navigation saturates instead of
    wrapping around: [n] right presses after entering lead to contract
    min(n, contract_count - 1), and [m] left presses from there to
    contract max(0, min(n, contract_count - 1) - m). *)
Theorem navigation_saturates :
  forall cs count n m,
    0 < count < 2 ^ 32 ->
    let st := inputs (repeat (press InputKeyRight) n) (entered_with cs count) in
    selected_index st = Z.min (Z.of_nat n) (count - 1) /\
    selected_index (inputs (repeat (press InputKeyLeft) m) st)
    = Z.max 0 (Z.min (Z.of_nat n) (count - 1) - Z.of_nat m).
Proof.
  intros cs count n m Hcount st.
  destruct (rights_from n (entered_with cs count)) as [R1 _];
    try (simpl; lia).
  cbv zeta in R1. fold st in R1. simpl in R1.
  split; [exact R1 | ].
  rewrite lefts_from by lia. rewrite R1. reflexivity.
Qed.

Lemma navigation_saturates_witness :
  selected_index
    (inputs (repeat (press InputKeyRight) 7)
            (entered_with (repeat zero_contract 4) 3))
  = Z.min (Z.of_nat 7) (3 - 1).
Proof.
  apply (navigation_saturates (repeat zero_contract 4) 3 7 0). lia.
Defined.

(** X11.  An input event of the contracts viewer changes nothing but
    the selected index.  The view port is asked to redraw exactly when
    the index changed, the previous scene is asked for exactly on a short
    press of Back, and the event is reported as handled exactly when one
    of the two happened; every other event (other keys, long presses,
    left at the first contract, right at the last) is passed on with the
    state untouched. *)
Theorem input_redraws_exactly_on_move :
  forall event st,
    0 <= selected_index st < 2 ^ 32 ->
    let r := contracts_input_callback event st in
    card (state_after r) = card st /\
    contracts (state_after r) = contracts st /\
    contract_count (state_after r) = contract_count st /\
    status_text (state_after r) = status_text st /\
    (In ViewPortUpdate (calls r) <->
     selected_index (state_after r) <> selected_index st) /\
    (In PreviousScene (calls r) <-> event = press InputKeyBack) /\
    (consumed r = true <-> calls r <> []) /\
    (consumed r = false -> state_after r = st).
Proof.
  intros event st Hs r.
  assert (wrap32 (selected_index st - 1) <> selected_index st) as Hl.
  { unfold wrap32. intros E.
    destruct (Z.eq_dec (selected_index st) 0) as [Hz | Hnz].
    - rewrite Hz in E. vm_compute in E. discriminate E.
    - rewrite Z.mod_small in E by lia. lia. }
  assert (wrap32 (selected_index st + 1) <> selected_index st) as Hr.
  { unfold wrap32. intros E.
    destruct (Z.eq_dec (selected_index st) (2 ^ 32 - 1)) as [Hz | Hnz].
    - rewrite Hz in E. vm_compute in E. discriminate E.
    - rewrite Z.mod_small in E by lia. lia. }
  assert ((event = press InputKeyBack /\ r = (true, st, [PreviousScene])) \/
          (event <> press InputKeyBack /\
           ((exists i, i <> selected_index st /\
                       r = (true, set_selected_index i st, [ViewPortUpdate])) \/
            r = (false, st, []))))
    as [[Hev ->] | [Hev [(i & Hi & ->) | ->]]].
  { unfold r, contracts_input_callback, press.
    destruct event as [ty key]. cbn [ev_type ev_key].
    destruct ty, key; cbn [InputType_eqb InputKey_eqb andb];
      try (right; split; [discriminate | right; reflexivity]);
      try (left; split; reflexivity).
    - destruct (selected_index st <? wrap32 (contract_count st - 1)).
      + right; split; [discriminate | left]. eexists. split; [exact Hr | ].
        reflexivity.
      + right; split; [discriminate | right; reflexivity].
    - destruct (0 <? selected_index st).
      + right; split; [discriminate | left]. eexists. split; [exact Hl | ].
        reflexivity.
      + right; split; [discriminate | right; reflexivity]. }
  - unfold consumed, state_after, calls. cbn [fst snd].
    repeat (split; [reflexivity | ]).
    split; [split; [intros [Hin | []]; discriminate Hin | congruence] | ].
    split; [split; [intros _; exact Hev | intros _; left; reflexivity] | ].
    split; [split; [discriminate | reflexivity] | discriminate].
  - unfold consumed, state_after, calls.
    cbn [fst snd set_selected_index card contracts contract_count
         status_text selected_index].
    repeat (split; [reflexivity | ]).
    split; [split; [intros _; exact Hi | intros _; left; reflexivity] | ].
    split; [split; [intros [Hin | []]; discriminate Hin | contradiction] | ].
    split; [split; [discriminate | reflexivity] | discriminate].
  - unfold consumed, state_after, calls. cbn [fst snd].
    repeat (split; [reflexivity | ]).
    split; [split; [intros [] | congruence] | ].
    split; [split; [intros [] | contradiction] | ].
    split; [split; [discriminate | congruence] | reflexivity].
Qed.

Lemma input_redraws_exactly_on_move_witness :
  In ViewPortUpdate
     (calls (contracts_input_callback (press InputKeyRight)
               (entered_with (repeat zero_contract 4) 2))).
Proof.
  destruct (input_redraws_exactly_on_move (press InputKeyRight)
              (entered_with (repeat zero_contract 4) 2))
    as (_ & _ & _ & _ & [_ Hmoved] & _).
  - simpl. lia.
  - apply Hmoved. vm_compute. discriminate.
Defined.

Lemma hex2_injective (a b : Z) : byte a -> byte b -> hex2 a = hex2 b -> a = b.
Proof.
  intros Ha Hb E.
  pose proof (unhex2_hex2 a Ha) as Ua. pose proof (unhex2_hex2 b Hb) as Ub.
  rewrite E in Ua. congruence.
Qed.

Lemma date_line_injective (prefix member : string) (c1 c2 : CalypsoContract)
    (y1 m1 d1 y2 m2 d2 : Z) :
  read c1 (Elem member 2) = Some d1 -> read c1 (Elem member 1) = Some m1 ->
  read c1 (Elem member 0) = Some y1 ->
  read c2 (Elem member 2) = Some d2 -> read c2 (Elem member 1) = Some m2 ->
  read c2 (Elem member 0) = Some y2 ->
  Forall byte [y1; m1; d1] -> Forall byte [y2; m2; d2] ->
  date_line prefix member c1 = date_line prefix member c2 ->
  [y1; m1; d1] = [y2; m2; d2].
Proof.
  intros R1 R2 R3 R4 R5 R6 B1 B2. unfold date_line.
  rewrite R1, R2, R3, R4, R5, R6. intros E. injection E as E.
  assert (forall p a b, (p ++ a)%string = (p ++ b)%string -> a = b) as Hcut.
  { induction p as [ | ch p IH]; simpl; intros a b Hab; [exact Hab | ].
    injection Hab as Hab. apply IH. exact Hab. }
  apply Hcut in E. unfold hex2 in E. simpl in E.
  injection E as Ed1 Ed2 Em1 Em2 Ey1 Ey2.
  inversion B1 as [ | ? ? By1 B1']. inversion B1' as [ | ? ? Bm1 B1''].
  inversion B1'' as [ | ? ? Bd1 _].
  inversion B2 as [ | ? ? By2 B2']. inversion B2' as [ | ? ? Bm2 B2''].
  inversion B2'' as [ | ? ? Bd2 _]. subst.
  rewrite (hex2_injective d1 d2), (hex2_injective m1 m2),
    (hex2_injective y1 y2); try assumption; try reflexivity;
    unfold hex2; congruence.
Qed.

(** X12.  The validity lines of the viewer are unambiguous: two
    contracts whose "Valid from" lines are the same text have the same
    three start-date bytes, and likewise for "Valid until" and the end
    date. *)
Theorem validity_lines_determine_dates :
  forall c1 c2,
    dates_well_formed c1 -> dates_well_formed c2 ->
    (valid_start_line c1 = valid_start_line c2 ->
     validity_start c1 = validity_start c2) /\
    (valid_end_line c1 = valid_end_line c2 ->
     validity_end c1 = validity_end c2).
Proof.
  intros c1 c2 (Ls1 & Bs1 & Le1 & Be1) (Ls2 & Bs2 & Le2 & Be2).
  destruct (validity_start c1) as [ | y1 [ | m1 [ | d1 [ | ? ?]]]] eqn:S1;
    try discriminate Ls1.
  destruct (validity_start c2) as [ | y2 [ | m2 [ | d2 [ | ? ?]]]] eqn:S2;
    try discriminate Ls2.
  destruct (validity_end c1) as [ | y3 [ | m3 [ | d3 [ | ? ?]]]] eqn:E1;
    try discriminate Le1.
  destruct (validity_end c2) as [ | y4 [ | m4 [ | d4 [ | ? ?]]]] eqn:E2;
    try discriminate Le2.
  split; intros E.
  - apply (date_line_injective "Valid from: " "validity_start" c1 c2);
      try assumption; unfold read; simpl; rewrite ?S1, ?S2; reflexivity.
  - apply (date_line_injective "Valid until: " "validity_end" c1 c2);
      try assumption; unfold read; simpl; rewrite ?E1, ?E2; reflexivity.
Qed.

Lemma validity_lines_determine_dates_witness :
  validity_start
    {| contract_number := 1; tariff_code := 1; profile_number := 0;
       validity_start := [36; 2; 1]; validity_end := [37; 2; 1];
       trip_counter := 0; minutes_remaining := 0; zones := repeat 0 8;
       is_active := true |}
  = validity_start
      {| contract_number := 2; tariff_code := 7; profile_number := 0;
         validity_start := [36; 2; 1]; validity_end := [38; 12; 31];
         trip_counter := 9; minutes_remaining := 0; zones := repeat 0 8;
         is_active := false |}.
Proof.
  assert (forall l, Forall (fun v => (0 <=? v) && (v <? 256) = true) l ->
                    Forall byte l) as Hb.
  { intros l Hl. eapply Forall_impl; [ | exact Hl]. intros v Hv.
    unfold byte. apply andb_prop in Hv. lia. }
  apply validity_lines_determine_dates.
  - repeat split; try reflexivity; apply Hb; repeat constructor.
  - repeat split; try reflexivity; apply Hb; repeat constructor.
  - reflexivity.
Defined.

Lemma inputs_keep_text (events : list InputEvent) (st : ContractsState) :
  status_text (inputs events st) = status_text st.
Proof.
  revert st. induction events as [ | e events IH]; intros st.
  - reflexivity.
  - change (inputs (e :: events) st) with (inputs events (input_step st e)).
    rewrite IH. unfold input_step, contracts_input_callback.
    destruct (InputType_eqb (ev_type e) InputTypeShort); [ | reflexivity].
    destruct (InputKey_eqb (ev_key e) InputKeyBack); [reflexivity | ].
    destruct (InputKey_eqb (ev_key e) InputKeyLeft && (0 <? selected_index st));
      [reflexivity | ].
    destruct (InputKey_eqb (ev_key e) InputKeyRight &&
              (selected_index st <? wrap32 (contract_count st - 1)));
      reflexivity.
Qed.

(** X13.  With one to four contracts read, the viewer draws the selected
    contract, whose position [selected_index + 1] lies between 1 and the
    count.  With several contracts it draws the selector
    "position/count" and the status bar offers switching; with a single
    contract it draws no selector, the status bar offers only Back, and
    no input event changes the state. *)
Theorem selector_shown_for_several_contracts :
  forall cs count events,
    0 < count <= 4 -> List.length cs = 4%nat ->
    let st := inputs events (entered_with cs count) in
    exists ops,
      contracts_draw_callback (Some st)
      = Drawn (Some (selected_index st)) ops /\
      1 <= selected_index st + 1 <= count /\
      (1 < count ->
       In (CanvasDrawStr 80 10
             (Some ("◀ " ++ dec (selected_index st + 1) ++ "/" ++
                    dec count ++ " ▶")%string)) ops /\
       status_text st = "◀/▶ Switch, Back to exit"%string) /\
      (count = 1 ->
       (forall text, ~ In (CanvasDrawStr 80 10 text) ops) /\
       status_text st = "Back to exit"%string /\
       forall event, input_step st event = st).
Proof.
  intros cs count events Hcount Hlen st.
  destruct (inputs_bounds events (entered_with cs count))
    as (E1 & E2 & E3 & E4); try (simpl; lia).
  cbv zeta in E1, E2, E3, E4. fold st in E1, E2, E3, E4.
  simpl in E1, E2, E4. specialize (E4 ltac:(lia)).
  pose proof (inputs_keep_text events (entered_with cs count)) as Etext.
  fold st in Etext. simpl in Etext.
  unfold contracts_draw_callback. rewrite E1, E2.
  destruct (Z.eqb_spec count 0) as [Hz | _]; [lia | ].
  destruct (Z.leb_spec 0 (selected_index st)); [ | lia].
  destruct (nth_error cs (Z.to_nat (selected_index st))) as [c | ] eqn:Hnth;
    [ | apply nth_error_None in Hnth; lia].
  eexists. split; [reflexivity | ]. split; [lia | ]. split.
  - intros Hmany. destruct (Z.ltb_spec 1 count); [ | lia]. split.
    + rewrite (DictAttackProofs.wrap32_small (selected_index st + 1)) by lia.
      apply in_or_app. right. apply in_or_app. right.
      apply in_or_app. left. left. reflexivity.
    + rewrite Etext. reflexivity.
  - intros Hone. destruct (Z.ltb_spec 1 count); [lia | ].
    split; [ | split].
    + intros text Hin.
      repeat (apply in_app_or in Hin; destruct Hin as [Hin | Hin]);
        simpl in Hin;
        repeat (destruct Hin as [Hin | Hin]; try discriminate Hin);
        contradiction.
    + rewrite Etext. reflexivity.
    + intros event. unfold input_step, contracts_input_callback.
      rewrite E1, Hone. change (wrap32 (1 - 1)) with 0.
      assert (selected_index st = 0) as Hfirst by lia. rewrite Hfirst.
      simpl.
      destruct (InputType_eqb (ev_type event) InputTypeShort); [ | reflexivity].
      destruct (InputKey_eqb (ev_key event) InputKeyBack); [reflexivity | ].
      rewrite !andb_false_r. reflexivity.
Qed.

Lemma selector_shown_for_several_contracts_witness :
  exists ops,
    contracts_draw_callback
      (Some (inputs [press InputKeyRight]
                    (entered_with (repeat zero_contract 4) 3)))
    = Drawn (Some 1) ops /\
    In (CanvasDrawStr 80 10 (Some "◀ 2/3 ▶"%string)) ops.
Proof.
  destruct (selector_shown_for_several_contracts (repeat zero_contract 4) 3
              [press InputKeyRight])
    as (ops & Hdraw & _ & Hmany & _).
  - lia.
  - reflexivity.
  - exists ops. split; [exact Hdraw | ]. apply Hmany. lia.
Defined.

End ContractsMore.

(** ** The key test that the attack lacks *)

Module KeyRecovery.
Import DictAttack Statements DictAttackView DictAttackProofs DictAttackMore.

Lemma ticks_keep_frequency K H KEYS app (nows : list Z) (g : Globals) :
  frequency (dict_state (ticks K H KEYS app nows g))
  = frequency (dict_state g).
Proof.
  revert g. induction nows as [ | now nows IH]; intros g.
  - reflexivity.
  - rewrite ticks_cons, IH. unfold dict_attack_timer_callback.
    destruct (status (dict_state g)); reflexivity.
Qed.

(** C1.  What the engine does where it is specified to report success:
    over a corpus of N >= 1 keys, after n <= N attempts of an attack
    that is not stopped the status is "Attacking" (n < N) or "Complete"
    (n = N) and never "Success", with no success flag and no key to
    show, whichever key of the corpus is the true one.  In particular
    with the true key at index i the status after i+1 attempts is not
    "Success"; only "Complete" after exactly N attempts is as
    specified. *)
Theorem true_key_is_never_reported :
  forall K H KEYS app g0 now0 nows,
    view_dispatcher app = true ->
    0 < corpus_size K H ->
    let n := Z.of_nat (List.length nows) in
    n <= corpus_size K H ->
    let st := dict_state (attack K H KEYS app g0 now0 nows) in
    keys_tried st = n /\
    status st = (if n <? corpus_size K H then DictAttackStatusAttacking
                 else DictAttackStatusComplete) /\
    status st <> DictAttackStatusSuccess /\
    success st = false /\ key_line st = None /\
    status_text (status st) <> "SUCCESS!"%string.
Proof.
  intros K H KEYS app g0 now0 nows Hvd HN n Hn st.
  destruct (attack_progress K H KEYS app g0 now0 nows Hvd HN Hn)
    as (P1 & _ & P3 & _ & P5).
  fold n in P1, P5. fold st in P1, P3, P5.
  split; [exact P1 | ]. split; [exact P5 | ].
  unfold key_line. rewrite P3, P5.
  destruct (n <? corpus_size K H); repeat split; discriminate.
Qed.

Lemma true_key_is_never_reported_witness :
  let st := dict_state (attack 2 1 (fun i => 1000 + i) app_with_dispatcher
                               initial_globals 0 [100]) in
  status st = DictAttackStatusAttacking /\
  status st <> DictAttackStatusSuccess /\ key_line st = None.
Proof.
  destruct (true_key_is_never_reported 2 1 (fun i => 1000 + i)
              app_with_dispatcher initial_globals 0 [100])
    as (_ & Hs & Hns & _ & Hk & _).
  - reflexivity.
  - vm_compute. reflexivity.
  - vm_compute. discriminate.
  - split; [exact Hs | split; [exact Hns | exact Hk]].
Defined.

(** C2.  What the attempt for the key at index k of the corpus does,
    all of it: it logs that key, counts it, logs the progress at every
    50th key and the end after the last one, and sends one custom
    event.  The state after it is fixed by k, the corpus and the clock
    alone: the attack goes on unless k was the last key, and no success
    or found key is recorded.  Nothing in it stands for an
    authentication, so no key can end the loop early or be reported as
    found. *)
Theorem attempt_is_log_and_count :
  forall K H KEYS app g0 now0 nows now,
    view_dispatcher app = true ->
    0 <= K -> 0 < K + H < 2 ^ 32 ->
    let k := Z.of_nat (List.length nows) in
    k < K + H ->
    let g := attack K H KEYS app g0 now0 nows in
    let g' := dict_attack_timer_callback K H KEYS (Some app) now g in
    trace g'
    = trace g ++ [key_log K KEYS k] ++
      (if (k + 1) mod 50 =? 0
       then [LogProgress (k + 1) (K + H) (wrap32 ((k + 1) * 100) / (K + H))]
       else []) ++
      (if K + H <=? k + 1 then [LogAppend "Dictionary attack complete"]
       else []) ++
      [SendCustomEvent 0] /\
    dict_state g'
    = {| status := if K + H <=? k + 1 then DictAttackStatusComplete
                   else DictAttackStatusAttacking;
         frequency := 433920000;
         keys_tried := k + 1;
         total_keys := K + H;
         attack_time_ms := wrap32 (now - now0);
         found_key := EmptyString;
         success := false |}.
Proof.
  intros K H KEYS app g0 now0 nows now Hvd HK HKH k Hk g g'.
  assert (corpus_size K H = K + H) as HN
    by (unfold corpus_size; apply wrap32_small; lia).
  destruct (attack_progress K H KEYS app g0 now0 nows Hvd
              ltac:(rewrite HN; lia) ltac:(rewrite HN; fold k; lia))
    as (P1 & P2 & P3 & P4 & P5).
  fold k in P1, P5. fold g in P1, P2, P3, P4, P5. rewrite HN in P2, P5.
  destruct (Z.ltb_spec k (K + H)); [ | lia].
  assert (frequency (dict_state g) = 433920000) as Hfreq.
  { unfold g, attack. rewrite ticks_keep_frequency.
    unfold predator_scene_dictionary_attack_ui_on_enter. rewrite Hvd.
    reflexivity. }
  assert (attack_start_tick g = now0) as Hstart.
  { unfold g, attack. rewrite ticks_keep_start.
    unfold predator_scene_dictionary_attack_ui_on_enter. rewrite Hvd.
    reflexivity. }
  assert (try_next_key K H KEYS k = [key_log K KEYS k]) as Htry.
  { unfold try_next_key, key_log. rewrite HN.
    destruct (Z.ltb_spec k K); [reflexivity | ].
    destruct (Z.ltb_spec k (K + H)); [ | lia].
    rewrite wrap32_small by lia. reflexivity. }
  unfold g', dict_attack_timer_callback. rewrite P5. cbv zeta.
  cbn [trace dict_state].
  rewrite P1, P2, P3, P4, Hfreq, Hstart, Htry, Hvd.
  rewrite (wrap32_small (k + 1)) by lia.
  destruct (Z.ltb_spec 0 (K + H)); [ | lia]. rewrite andb_true_r.
  split; reflexivity.
Qed.

Lemma attempt_is_log_and_count_witness :
  let g := attack 2 1 (fun i => 1000 + i) app_with_dispatcher
                  initial_globals 0 [] in
  let g' := dict_attack_timer_callback 2 1 (fun i => 1000 + i)
              (Some app_with_dispatcher) 100 g in
  trace g' = trace g ++ [LogTryKeeloq 0 1000; SendCustomEvent 0] /\
  status (dict_state g') = DictAttackStatusAttacking /\
  success (dict_state g') = false.
Proof.
  destruct (attempt_is_log_and_count 2 1 (fun i => 1000 + i)
              app_with_dispatcher initial_globals 0 [] 100)
    as [Htrace Hstate].
  - reflexivity.
  - lia.
  - lia.
  - vm_compute. reflexivity.
  - split; [exact Htrace | ]. rewrite Hstate. split; reflexivity.
Defined.

End KeyRecovery.
